(** * openwrt-configurator: the resolution and planning engine

    A shallow embedding of the Go packages [condition] (the condition
    evaluator), [device] (state resolution: [applyObject], [resolveConfig],
    [resolvePackages], [getConfigSectionsToReset]; the script of a device)
    and [uci] (command generation), of [ConfigConfig.UnmarshalJSON] and of
    the loop of [printUciCommandsCmd] over the devices, followed by the
    properties of the specification.

    Conventions.
    - A Go [string] is a byte sequence: [string] of 8-bit [ascii].
    - A Go [map[string]T] is a [gmap string T].  A [for k, v := range m]
      loop visits the entries in an order the language leaves open and that
      may change from one run to the next: every such loop takes the order
      from a [range_order], an arbitrary enumeration of the entries.
    - A Go [panic] is the [Panic] case of [outcome]; code that can panic
      lives in the [outcome] monad.
    - Values of type [any] are the values [encoding/json] decodes into
      [interface{}], plus [[]string]. *)

From Stdlib Require Import Ascii String.
From stdpp Require Import gmap strings list fin_maps sorting.

Set Warnings "-register-all".
Set Default Proof Using "Type".

(** ** Go values *)

(** [float64] stays a parameter: the code under study never computes with a
    number, it only hands it to [fmt] and [strconv]. *)
Inductive any (float64 : Type) : Type :=
  | Nil
  | Bool (b : bool)
  | Float64 (f : float64)
  | Str (s : string)
  | Arr (l : list (any float64))
  | Strs (l : list string)
  | Obj (m : gmap string (any float64)).

Arguments Nil {float64}.
Arguments Bool {float64} b.
Arguments Float64 {float64} f.
Arguments Str {float64} s.
Arguments Arr {float64} l.
Arguments Strs {float64} l.
Arguments Obj {float64} m.

(** ** Panics *)

Inductive panic : Type :=
  | InvalidConditionalParameter (lhs : string)
      (* panic("Invalid conditional parameter: <lhs>"): the specification's
         UnknownConditionVariable *)
  | UnableToParseCondition (expr : string)
      (* panic("Unable to parse condition: <expr>"): the specification's
         MalformedCondition *)
  | SliceBoundsOutOfRange
      (* the runtime error of an expression s[i:j] with i > j *)
  | NilPointerDereference.
      (* the runtime error of a field read through a nil pointer *)

Inductive outcome (A : Type) : Type :=
  | Ok (a : A)
  | Panic (p : panic).

Arguments Ok {A} a.
Arguments Panic {A} p.

Global Instance panic_eq_dec : EqDecision panic.
Proof. solve_decision. Defined.

Global Instance outcome_eq_dec {A : Type} `{EqDecision A} :
  EqDecision (outcome A).
Proof. solve_decision. Defined.

Global Instance outcome_ret : MRet outcome := @Ok.
Global Instance outcome_bind : MBind outcome := λ A B f r,
  match r with
  | Ok a => f a
  | Panic p => Panic p
  end.

(** ** Map iteration *)

Record range_order : Type := RangeOrder {
  range : ∀ A : Type, gmap string A → list (string * A);
  range_perm : ∀ (A : Type) (m : gmap string A), range A m ≡ₚ map_to_list m
}.

Arguments range _ {A} m.

Definition range_keys (o : range_order) {A} (m : gmap string A) : list string :=
  (range o m).*1.

(** Two enumerations, to run the definitions on concrete maps. *)
Definition range_canonical : range_order :=
  RangeOrder (λ A m, map_to_list m) (λ A m, reflexivity _).

Definition range_reversed : range_order :=
  RangeOrder (λ A m, reverse (map_to_list m))
             (λ A m, reverse_Permutation (map_to_list m)).

(** ** The Go standard library, as far as the code uses it *)

Module GoStrings.

Definition byte_of (n : nat) : ascii := ascii_of_nat n.

Definition bytes (l : list nat) : string :=
  foldr (λ n s, String (byte_of n) s) EmptyString l.

Definition len (s : string) : nat := String.length s.

Definition HasPrefix (s prefix : string) : bool := String.prefix prefix s.

Definition HasSuffix (s suffix : string) : bool :=
  String.prefix (String.rev suffix) (String.rev s).

(** [s[n:]], for [n <= len s]. *)
Fixpoint slice_from (n : nat) (s : string) : string :=
  match n, s with
  | S k, String _ rest => slice_from k rest
  | _, _ => s
  end.

(** [s[:n]], for [n <= len s]. *)
Fixpoint slice_to (n : nat) (s : string) : string :=
  match n, s with
  | S k, String c rest => String c (slice_to k rest)
  | _, _ => EmptyString
  end.

(** The runes [unicode.IsSpace] accepts, in UTF-8: tab, line feed,
    vertical tab, form feed, carriage return, space, U+0085, U+00A0,
    U+1680, U+2000 to U+200A, U+2028, U+2029, U+202F, U+205F, U+3000. *)
Definition space_runes : list string :=
  [bytes [9]; bytes [10]; bytes [11]; bytes [12]; bytes [13]; bytes [32];
   bytes [194; 133]; bytes [194; 160]; bytes [225; 154; 128]]
  ++ ((λ n, bytes [226; 128; n]) <$> seq 128 11)
  ++ [bytes [226; 128; 168]; bytes [226; 128; 169]; bytes [226; 128; 175];
      bytes [226; 129; 159]; bytes [227; 128; 128]].

Definition leading_space (runes : list string) (s : string) : option nat :=
  len <$> list_find (λ r, Is_true (HasPrefix s r)) runes ≫= (λ p, Some p.2).

Fixpoint trim_left (fuel : nat) (runes : list string) (s : string) : string :=
  match fuel with
  | 0 => s
  | S fuel' =>
      match leading_space runes s with
      | Some n => trim_left fuel' runes (slice_from n s)
      | None => s
      end
  end.

Definition TrimLeftSpace (s : string) : string :=
  trim_left (len s) space_runes s.

Definition TrimRightSpace (s : string) : string :=
  String.rev (trim_left (len s) (String.rev <$> space_runes) (String.rev s)).

(** [strings.TrimSpace]: all leading and trailing white space removed. *)
Definition TrimSpace (s : string) : string :=
  TrimRightSpace (TrimLeftSpace s).

(** [strings.Split s sep] for a non-empty [sep]: the pieces of [s] between
    the occurrences of [sep], scanned from the left. *)
Fixpoint split_go (sep s : string) (skip : nat) (current : string)
    : list string :=
  match s with
  | EmptyString => [current]
  | String c rest =>
      match skip with
      | S k => split_go sep rest k current
      | 0 =>
          if HasPrefix s sep
          then current :: split_go sep rest (len sep - 1) EmptyString
          else split_go sep rest 0 (current +:+ String c EmptyString)
      end
  end.

Definition Split (s sep : string) : list string :=
  split_go sep s 0 EmptyString.

(** [strings.Join]. *)
Fixpoint Join (elems : list string) (sep : string) : string :=
  match elems with
  | [] => EmptyString
  | [e] => e
  | e :: rest => e +:+ sep +:+ Join rest sep
  end.

End GoStrings.

Import GoStrings.

(** The double quote character, as a one-byte string. *)
Definition dquote : string := String "034"%char EmptyString.

(** A loop whose body can panic: the first panic ends the loop. *)
Fixpoint foldM {A S : Type} (f : S → A → outcome S) (s : S) (l : list A)
    : outcome S :=
  match l with
  | [] => Ok s
  | x :: l' => s' ← f s x; foldM f s' l'
  end.

(** ** A decoder to run the definitions

    [encoding/json] is a parameter of the development.  To evaluate the
    definitions on concrete inputs, [decode_literals] decodes the JSON texts
    [true], [false] and [null], with optional JSON white space around them,
    and reports an error on every other text: it agrees with
    [json.Unmarshal] on these three texts and on every text that is not
    JSON.  It is used together with [float64 := Empty_set], the values
    without numbers. *)

Definition json_space : list string := [bytes [32]; bytes [9]; bytes [10]; bytes [13]].

Definition decode_literals {float64 : Type} (s : string) : option (any float64) :=
  let s := trim_left (len s) json_space s in
  let s := String.rev (trim_left (len s) json_space (String.rev s)) in
  if bool_decide (s = "true") then Some (Bool true)
  else if bool_decide (s = "false") then Some (Bool false)
  else if bool_decide (s = "null") then Some Nil
  else None.

Definition no_float : Empty_set → string := λ f, match f with end.

Section Engine.

Context {float64 : Type}.
Abbreviation any := (any float64).

(** [json.Unmarshal([]byte(s), &value)] with [value] an [interface{}]:
    the decoded value, or [None] when it returns an error. *)
Variable Unmarshal : string → option any.
(** [fmt.Sprintf("%v", f)] for a [float64]. *)
Variable Sprint_float64 : float64 → string.
(** [strconv.FormatFloat(f, 'f', -1, 64)]. *)
Variable FormatFloat : float64 → string.
(** The order in which this run visits the entries of its maps. *)
Variable o : range_order.

(** [fmt.Sprintf("%v", v)]: scalars print bare, a slice prints its
    elements between brackets, a map prints its entries sorted by key. *)
Fixpoint Sprint (v : any) : string :=
  match v with
  | Nil => "<nil>"
  | Bool true => "true"
  | Bool false => "false"
  | Float64 f => Sprint_float64 f
  | Str s => s
  | Arr l => "[" +:+ Join (Sprint <$> l) " " +:+ "]"
  | Strs l => "[" +:+ Join l " " +:+ "]"
  | Obj m =>
      "map["
      +:+ Join ((λ kv, kv.1 +:+ ":" +:+ kv.2)
                  <$> merge_sort (λ a b, String.le a.1 b.1)
                        (map_to_list (Sprint <$> m))) " "
      +:+ "]"
  end.

(** *** package config *)

(** [Enabled] and [ProvisioningConfig] play no part in resolution. *)
Record DeviceConfig : Type := {
  ModelID : string;
  IPAddr : string;
  Hostname : string;
  Tags : gmap string any
}.

Record PackageProfile : Type := {
  PackageProfile_If : option string;
  Packages : list string
}.

Record ConfigsToNotReset : Type := {
  ConfigsToNotReset_If : option string;
  Configs : list string
}.

(** The six typed groups are kept as the JSON objects that encode them;
    [None] is a nil pointer. *)
Record ConfigConfig : Type := {
  System : option (gmap string any);
  Network : option (gmap string any);
  Firewall : option (gmap string any);
  DHCP : option (gmap string any);
  Wireless : option (gmap string any);
  Dropbear : option (gmap string any);
  Extra : gmap string any
}.

Record ONCConfig : Type := {
  Devices : list DeviceConfig;
  PackageProfiles : list PackageProfile;
  ONCConfig_ConfigsToNotReset : list ConfigsToNotReset;
  Config : ConfigConfig
}.

Definition knownFields : list string :=
  ["system"; "network"; "firewall"; "dhcp"; "wireless"; "dropbear"].

(** [json.Unmarshal(data, &aux)] in [ConfigConfig.UnmarshalJSON], with [aux]
    an alias of the receiver [c]: the decoding of the object [raw] into the
    six typed groups of [c], which leaves [Extra] as it is; [None] when it
    returns an error.  Like [Unmarshal], it is a parameter. *)
Variable Unmarshal_Alias : ConfigConfig → gmap string any → option ConfigConfig.

(** [ConfigConfig.UnmarshalJSON], with receiver [c], on a "config" that is
    the JSON object [raw]; [None] is a returned error.  The source's
    [knownFields] is a [map[string]bool] that holds [true] for the six keys,
    and every value of [raw] decodes, since [raw] itself was decoded. *)
Definition UnmarshalJSON (c : ConfigConfig) (raw : gmap string any)
    : option ConfigConfig :=
  match Unmarshal_Alias c raw with
  | None => None
  | Some c =>
      let Extra : gmap string any :=
        foldl (λ Extra kv,
                 if bool_decide (kv.1 ∈ knownFields) then Extra
                 else <[kv.1 := kv.2]> Extra)
              ∅ (range o raw) in
      Some {| System := System c; Network := Network c;
              Firewall := Firewall c; DHCP := DHCP c;
              Wireless := Wireless c; Dropbear := Dropbear c;
              Extra := Extra |}
  end.

(** [json.Marshal] of a [ConfigConfig] followed by [json.Unmarshal] into a
    [map[string]any], as [resolveConfig] does: nil groups are omitted
    (omitempty) and so is [Extra] (tagged [json:"-"]). *)
Definition marshalGroup (key : string) (g : option (gmap string any))
    (m : gmap string any) : gmap string any :=
  match g with
  | Some obj => <[key := Obj obj]> m
  | None => m
  end.

Definition marshalConfig (c : ConfigConfig) : gmap string any :=
  marshalGroup "dropbear" (Dropbear c)
    (marshalGroup "wireless" (Wireless c)
      (marshalGroup "dhcp" (DHCP c)
        (marshalGroup "firewall" (Firewall c)
          (marshalGroup "network" (Network c)
            (marshalGroup "system" (System c) ∅))))).

(** *** package condition *)

Record condition_DeviceSchema : Type := {
  condition_SwConfig : bool;
  condition_Version : string
}.

Record ConditionContext : Type := {
  ctx_DeviceConfig : DeviceConfig;
  ctx_DeviceSchema : condition_DeviceSchema
}.

Definition buildLHSMapping (ctx : ConditionContext) : gmap string any :=
  let mapping : gmap string any := ∅ in
  let mapping :=
    <["device.sw_config" := Bool (condition_SwConfig (ctx_DeviceSchema ctx))]> mapping in
  let mapping :=
    <["device.hostname" := Str (Hostname (ctx_DeviceConfig ctx))]> mapping in
  let mapping :=
    <["device.ipaddr" := Str (IPAddr (ctx_DeviceConfig ctx))]> mapping in
  let mapping :=
    <["device.model_id" := Str (ModelID (ctx_DeviceConfig ctx))]> mapping in
  let mapping :=
    <["device.version" := Str (condition_Version (ctx_DeviceSchema ctx))]> mapping in
  foldl (λ mapping kv, <["device.tag." +:+ kv.1 := kv.2]> mapping)
        mapping (range o (Tags (ctx_DeviceConfig ctx))).

Definition is_quote (c : ascii) : bool :=
  bool_decide (c = "'"%char) || bool_decide (c = "034"%char).

(** The loop of [splitByOperator]; [skip] counts the bytes of a matched
    operator that remain to be stepped over. *)
Fixpoint splitByOperator_loop (operator expr : string) (skip : nat)
    (inQuotes : bool) (current : string) : list string :=
  match expr with
  | EmptyString =>
      match current with
      | EmptyString => []
      | _ => [current]
      end
  | String c rest =>
      match skip with
      | S k => splitByOperator_loop operator rest k inQuotes current
      | 0 =>
          if is_quote c then
            splitByOperator_loop operator rest 0 (negb inQuotes)
              (current +:+ String c EmptyString)
          else if negb inQuotes && HasPrefix expr operator then
            current ::
              splitByOperator_loop operator rest (len operator - 1)
                inQuotes EmptyString
          else
            splitByOperator_loop operator rest 0 inQuotes
              (current +:+ String c EmptyString)
      end
  end.

Definition splitByOperator (expr operator : string) : list string :=
  splitByOperator_loop operator expr 0 false EmptyString.

(** The loop of [splitComparison]; [before] is [expr[:i]]. *)
Fixpoint splitComparison_loop (operator expr : string) (inQuotes : bool)
    (quoteChar : ascii) (before : string) : option (string * string) :=
  match expr with
  | EmptyString => None
  | String c rest =>
      if is_quote c then
        if negb inQuotes then
          splitComparison_loop operator rest true c
            (before +:+ String c EmptyString)
        else if bool_decide (c = quoteChar) then
          splitComparison_loop operator rest false quoteChar
            (before +:+ String c EmptyString)
        else
          splitComparison_loop operator rest inQuotes quoteChar
            (before +:+ String c EmptyString)
      else if negb inQuotes && HasPrefix expr operator then
        Some (before, slice_from (len operator) expr)
      else
        splitComparison_loop operator rest inQuotes quoteChar
          (before +:+ String c EmptyString)
  end.

Definition splitComparison (expr operator : string) : list string :=
  match splitComparison_loop operator expr false (byte_of 0) EmptyString with
  | Some (l, r) => [l; r]
  | None => [expr]
  end.

Definition quoted (s : string) : bool :=
  (HasPrefix s "'" && HasSuffix s "'")
  || (HasPrefix s dquote && HasSuffix s dquote).

Definition parseValue (s : string) : outcome any :=
  let s := TrimSpace s in
  s ← (if quoted s then
         if bool_decide (1 ≤ len s - 1)
         then Ok (slice_to (len s - 2) (slice_from 1 s))
         else Panic SliceBoundsOutOfRange
       else Ok s);
  match Unmarshal s with
  | Some value => Ok value
  | None => Ok (Str s)
  end.

Definition compareScalar (lhs rhs : any) : bool :=
  match lhs, rhs with
  | Bool lhsBool, Bool rhsBool => bool_decide (lhsBool = rhsBool)
  | _, _ => bool_decide (Sprint lhs = Sprint rhs)
  end.

Definition compareValues (lhs rhs : any) (equals : bool) : bool :=
  match lhs with
  | Arr arr =>
      let contains := existsb (λ item, compareScalar item rhs) arr in
      if equals then contains else negb contains
  | Strs arr =>
      let contains := existsb (λ item, compareScalar (Str item) rhs) arr in
      if equals then contains else negb contains
  | _ =>
      let result := compareScalar lhs rhs in
      if equals then result else negb result
  end.

(** The body shared by the two branches of [evaluateComparison]. *)
Definition compareParts (lhsMapping : gmap string any)
    (part0 part1 : string) (equals : bool) : outcome bool :=
  let lhs := TrimSpace part0 in
  let rhs := TrimSpace part1 in
  match lhsMapping !! lhs with
  | None => Panic (InvalidConditionalParameter lhs)
  | Some lhsValue =>
      rhsValue ← parseValue rhs;
      Ok (compareValues lhsValue rhsValue equals)
  end.

Definition evaluateComparison (expr : string)
    (lhsMapping : gmap string any) : outcome bool :=
  let expr := TrimSpace expr in
  match splitComparison expr "==" with
  | [part0; part1] => compareParts lhsMapping part0 part1 true
  | _ =>
      match splitComparison expr "!=" with
      | [part0; part1] => compareParts lhsMapping part0 part1 false
      | _ => Panic (UnableToParseCondition expr)
      end
  end.

(** The inner loop of [evaluateExpression]: [allTrue], with its [break]. *)
Fixpoint allTrue (andParts : list string) (lhsMapping : gmap string any)
    : outcome bool :=
  match andParts with
  | [] => Ok true
  | andPart :: rest =>
      match evaluateComparison (TrimSpace andPart) lhsMapping with
      | Ok true => allTrue rest lhsMapping
      | Ok false => Ok false
      | Panic p => Panic p
      end
  end.

(** The outer loop of [evaluateExpression], with its early [return true]. *)
Fixpoint anyGroup (orParts : list string) (lhsMapping : gmap string any)
    : outcome bool :=
  match orParts with
  | [] => Ok false
  | orPart :: rest =>
      match allTrue (splitByOperator orPart "&&") lhsMapping with
      | Ok true => Ok true
      | Ok false => anyGroup rest lhsMapping
      | Panic p => Panic p
      end
  end.

Definition evaluateExpression (expr : string)
    (lhsMapping : gmap string any) : outcome bool :=
  anyGroup (splitByOperator expr "||") lhsMapping.

Definition Evaluate (condition : option string) (ctx : ConditionContext)
    : outcome bool :=
  match condition with
  | None => Ok true
  | Some c =>
      if bool_decide (c = "*") then Ok true
      else evaluateExpression c (buildLHSMapping ctx)
  end.

(** *** package device *)

Record DeviceSchema : Type := {
  Name : string;
  Version : string;
  SwConfig : bool;
  ConfigSections : gmap string (list string)
}.

(** *** package uci: the package types *)

Record Package : Type := {
  Package_Name : string;
  Package_Version : string
}.

Record InstalledPackage : Type := {
  InstalledPackage_Name : string;
  InstalledPackage_Version : string
}.

(** *** package device, continued *)

(** The value of [obj[".if"]] when it is a string, nil otherwise. *)
Definition conditionOf (obj : gmap string any) : option string :=
  match obj !! ".if" with
  | Some (Str s) => Some s
  | _ => None
  end.

(** One [.overrides] entry applied to [result]. *)
Definition applyOverride (ctx : ConditionContext)
    (result : gmap string any) (override : any)
    : outcome (gmap string any) :=
  match override with
  | Obj overrideMap =>
      b ← Evaluate (conditionOf overrideMap) ctx;
      if b : bool then
        match overrideMap !! "override" with
        | Some (Obj overrideData) =>
            Ok (foldl (λ result kv, <[kv.1 := kv.2]> result)
                      result (range o overrideData))
        | _ => Ok result
        end
      else Ok result
  | _ => Ok result
  end.

Definition applyObject (obj : gmap string any) (ctx : ConditionContext)
    : outcome (gmap string any) :=
  matches ← Evaluate (conditionOf obj) ctx;
  if negb matches then Ok ∅
  else
    let result : gmap string any :=
      foldl (λ result kv,
               if bool_decide (kv.1 ≠ ".if") && bool_decide (kv.1 ≠ ".overrides")
               then <[kv.1 := kv.2]> result
               else result)
            ∅ (range o obj) in
    match obj !! ".overrides" with
    | Some (Arr overrides) => foldM (applyOverride ctx) result overrides
    | _ => Ok result
    end.

(** The loop of [resolveConfig] over the sections of one section type. *)
Definition resolveSection (ctx : ConditionContext)
    (resolvedSectionList : list any) (section : any) : outcome (list any) :=
  match section with
  | Obj sectionMap =>
      resolvedSection ← applyObject sectionMap ctx;
      if bool_decide (0 < size resolvedSection)
      then Ok (resolvedSectionList ++ [Obj resolvedSection])
      else Ok resolvedSectionList
  | _ => Ok resolvedSectionList
  end.

(** The loop of [resolveConfig] over the keys of one applied group. *)
Definition resolveSectionKey (ctx : ConditionContext)
    (resolvedSections : gmap string any) (kv : string * any)
    : outcome (gmap string any) :=
  let '(sectionKey, sectionValue) := kv in
  if HasPrefix sectionKey "." then Ok resolvedSections
  else
    match sectionValue with
    | Arr sections =>
        resolvedSectionList ← foldM (resolveSection ctx) [] sections;
        if bool_decide (0 < length resolvedSectionList)
        then Ok (<[sectionKey := Arr resolvedSectionList]> resolvedSections)
        else Ok resolvedSections
    | _ => Ok resolvedSections
    end.

(** The outer loop of [resolveConfig], over the groups. *)
Definition resolveGroup (ctx : ConditionContext)
    (resolved : gmap string any) (kv : string * any)
    : outcome (gmap string any) :=
  let '(configKey, configValue) := kv in
  if bool_decide (configKey = "extra") then Ok resolved
  else
    match configValue with
    | Obj configObj =>
        appliedConfig ← applyObject configObj ctx;
        if bool_decide (size appliedConfig = 0) then Ok resolved
        else
          resolvedSections ←
            foldM (resolveSectionKey ctx) ∅ (range o appliedConfig);
          if bool_decide (0 < size resolvedSections)
          then Ok (<[configKey := Obj resolvedSections]> resolved)
          else Ok resolved
    | _ => Ok resolved
    end.

(** [resolveConfig]; its [error] result is always nil, so only the map is
    returned. *)
Definition resolveConfig (oncConfig : ONCConfig) (ctx : ConditionContext)
    : outcome (gmap string any) :=
  let configMap := marshalConfig (Config oncConfig) in
  foldM (resolveGroup ctx) ∅ (range o configMap).

(** One raw token turned into a directive. *)
Definition parseToken (acc : list Package * list string) (pkg : string)
    : list Package * list string :=
  let '(install, uninstall) := acc in
  if bool_decide (0 < len pkg) && HasPrefix pkg "-" then
    (install, uninstall ++ [slice_from 1 pkg])
  else
    let parts := Split pkg "@" in
    let p := {| Package_Name := default EmptyString (parts !! 0);
                Package_Version := EmptyString |} in
    let p := if bool_decide (1 < length parts)
             then {| Package_Name := Package_Name p;
                     Package_Version := default EmptyString (parts !! 1) |}
             else p in
    (install ++ [p], uninstall).

Definition resolvePackages (oncConfig : ONCConfig) (ctx : ConditionContext)
    : outcome (list Package * list string) :=
  allPackages ←
    foldM (λ allPackages profile,
             b ← Evaluate (PackageProfile_If profile) ctx;
             Ok (if b : bool then allPackages ++ Packages profile
                 else allPackages))
          [] (PackageProfiles oncConfig);
  let packageSet : gmap string bool :=
    foldl (λ packageSet pkg, <[pkg := true]> packageSet) ∅ allPackages in
  Ok (foldl parseToken ([], []) (range_keys o packageSet)).

Definition resolveConfigsToNotReset (oncConfig : ONCConfig)
    (ctx : ConditionContext) : outcome (list string) :=
  foldM (λ configs item,
           b ← Evaluate (ConfigsToNotReset_If item) ctx;
           Ok (if b : bool then configs ++ Configs item else configs))
        [] (ONCConfig_ConfigsToNotReset oncConfig).

(** A read [m[k]] of a [map[string]bool]: false when [k] is absent. *)
Definition index_bool (m : gmap string bool) (k : string) : bool :=
  default false (m !! k).

Definition getConfigSectionsToReset (deviceSchema : DeviceSchema)
    (configsToNotReset : list string) : gmap string (list string) :=
  let notResetSet : gmap string bool :=
    foldl (λ notResetSet cfg, <[cfg := true]> notResetSet)
          ∅ configsToNotReset in
  foldl (λ result kv,
           let '(configKey, sectionKeys) := kv in
           if index_bool notResetSet (configKey +:+ ".*") then result
           else
             let sectionsToReset :=
               foldl (λ sectionsToReset sectionKey,
                        let fullKey := configKey +:+ "." +:+ sectionKey in
                        if negb (index_bool notResetSet fullKey)
                        then sectionsToReset ++ [sectionKey]
                        else sectionsToReset)
                     [] sectionKeys in
             if bool_decide (0 < length sectionsToReset)
             then <[configKey := sectionsToReset]> result
             else result)
        ∅ (range o (ConfigSections deviceSchema)).

(** *** package uci *)

(** The cases [int] and [int64] of the source cannot occur: a decoded
    number is a [float64]. *)
Definition coerceValue (value : any) : string :=
  match value with
  | Bool true => "1"
  | Bool false => "0"
  | Str v => v
  | Float64 v => FormatFloat v
  | _ => Sprint value
  end.

Definition generatePropertyCommands (identifier key : string) (value : any)
    : list string :=
  match value with
  | Arr v =>
      (λ item, "uci add_list " +:+ identifier +:+ "." +:+ key +:+ "='"
                 +:+ coerceValue item +:+ "'") <$> v
  | v =>
      ["uci set " +:+ identifier +:+ "." +:+ key +:+ "='"
         +:+ coerceValue v +:+ "'"]
  end.

(** The commands of one element of a section list. *)
Definition sectionCommands (configKey sectionKey : string) (section : any)
    : list string :=
  match section with
  | Obj sectionMap =>
      match sectionMap !! ".name" with
      | Some (Str sectionName) =>
          let identifier := configKey +:+ "." +:+ sectionName in
          ("uci set " +:+ identifier +:+ "=" +:+ sectionKey)
            :: (range o sectionMap ≫= λ kv,
                  if bool_decide (kv.1 = ".name") then []
                  else generatePropertyCommands identifier kv.1 kv.2)
      | _ => []
      end
  | _ => []
  end.

Definition GenerateCommands (openWrtConfig : gmap string any)
    : list string :=
  range o openWrtConfig ≫= λ '(configKey, configValue),
    match configValue with
    | Obj configMap =>
        range o configMap ≫= λ '(sectionKey, sectionValue),
          match sectionValue with
          | Arr sections =>
              sections ≫= sectionCommands configKey sectionKey
          | _ => []
          end
    | _ => []
    end.

Definition GetResetCommands
    (configSectionsToReset : gmap string (list string)) : list string :=
  range o configSectionsToReset ≫= λ '(configKey, sectionKeys),
    (λ sectionKey, "while uci -q delete " +:+ configKey +:+ ".@"
                     +:+ sectionKey +:+ "[0]; do :; done") <$> sectionKeys.

(** The loops that build [pkgList]: a space before every name but the
    first. *)
Definition pkgList (names : list string) : string :=
  foldl (λ pkgList ip,
           (if bool_decide (0 < ip.1) then pkgList +:+ " " else pkgList)
             +:+ ip.2)
        EmptyString (imap pair names).

(** [installedPackages] is [None] for a nil slice. *)
Definition GetPackageCommands (packagesToInstall : list Package)
    (packagesToUninstall : list string)
    (installedPackages : option (list InstalledPackage)) : list string :=
  let '(filteredInstall, filteredUninstall) :=
    match installedPackages with
    | Some installedPackages =>
        let isInstalled (name : string) : bool :=
          existsb (λ installed,
                     bool_decide (InstalledPackage_Name installed = name))
                  installedPackages in
        (filter (λ pkg, isInstalled (Package_Name pkg) = false)
                packagesToInstall,
         filter (λ pkg, isInstalled pkg = true) packagesToUninstall)
    | None => (packagesToInstall, packagesToUninstall)
    end in
  (if bool_decide (0 < length filteredUninstall)
   then ["opkg remove --force-removal-of-dependent-packages "
           +:+ pkgList filteredUninstall]
   else [])
  ++
  (if bool_decide (0 < length filteredInstall)
   then ["opkg update;";
         "opkg install " +:+ pkgList (Package_Name <$> filteredInstall)]
   else []).

(** *** package device: the state of a device and its script *)

(** The line feed, as a one-byte string. *)
Definition newline : string := String "010"%char EmptyString.

Record OpenWrtState : Type := {
  State_Config : gmap string any;
  PackagesToInstall : list Package;
  PackagesToUninstall : list string;
  ConfigSectionsToReset : gmap string (list string)
}.

(** The condition context [GetOpenWrtState] builds for a device. *)
Definition contextOf (deviceConfig : DeviceConfig)
    (deviceSchema : DeviceSchema) : ConditionContext :=
  {| ctx_DeviceConfig := deviceConfig;
     ctx_DeviceSchema :=
       {| condition_SwConfig := SwConfig deviceSchema;
          condition_Version := Version deviceSchema |} |}.

(** [GetOpenWrtState]; its [error] result can only come from
    [resolveConfig], whose error is always nil. *)
Definition GetOpenWrtState (oncConfig : ONCConfig)
    (deviceConfig : DeviceConfig) (deviceSchema : DeviceSchema)
    : outcome OpenWrtState :=
  let ctx := contextOf deviceConfig deviceSchema in
  openWrtConfig ← resolveConfig oncConfig ctx;
  packages ← resolvePackages oncConfig ctx;
  configsToNotReset ← resolveConfigsToNotReset oncConfig ctx;
  let configSectionsToReset :=
    getConfigSectionsToReset deviceSchema configsToNotReset in
  Ok {| State_Config := openWrtConfig;
        PackagesToInstall := packages.1;
        PackagesToUninstall := packages.2;
        ConfigSectionsToReset := configSectionsToReset |}.

(** [parseInstalledPackages]; the result is [None] for a nil slice, which
    is what the function returns when no line has been appended. *)
Definition parseInstalledPackages (output : string)
    : option (list InstalledPackage) :=
  foldl (λ packages line,
           match Split line " - " with
           | [name; version] =>
               Some (default [] packages
                     ++ [{| InstalledPackage_Name := name;
                            InstalledPackage_Version := version |}])
           | _ => packages
           end)
        None (Split output newline).

(** An [ssh.SSHExecutor], as far as [GetDeviceScript] uses it: [Execute]
    maps a command to its output, or to [None] when it returns an error. *)
Definition SSHExecutor : Type := string → option string.

(** [GetDeviceScript]; [sshClient] is [None] for a nil client, and the
    [error] result is always nil. *)
Definition GetDeviceScript (state : OpenWrtState)
    (sshClient : option SSHExecutor) : list string :=
  let installedPackages :=
    match sshClient with
    | Some Execute =>
        match Execute "opkg list-installed" with
        | Some output => parseInstalledPackages output
        | None => None
        end
    | None => None
    end in
  let commands :=
    GetPackageCommands (PackagesToInstall state) (PackagesToUninstall state)
      installedPackages in
  let commands := commands ++ GetResetCommands (ConfigSectionsToReset state) in
  let commands := commands ++ GenerateCommands (State_Config state) in
  let commands := commands ++ ["uci commit"] in
  commands ++ ["reload_config"].

(** *** package main: the print-uci-commands command *)

(** The last loop of [printUciCommandsCmd], which generates and prints the
    commands of each enabled device once their schemas are known.  The
    result is the lines printed, and the panic that ended the run, if any;
    the [error] results of [GetOpenWrtState] and [GetDeviceScript] are
    always nil.  A device whose model has no schema in [deviceSchemas] gets
    a nil schema, which [GetOpenWrtState] reads. *)
Fixpoint printUciCommandsCmd_loop (oncConfig : ONCConfig)
    (deviceSchemas : gmap string DeviceSchema) (devices : list DeviceConfig)
    : list string * option panic :=
  match devices with
  | [] => ([], None)
  | dev :: devices =>
      match deviceSchemas !! ModelID dev with
      | None => ([], Some NilPointerDereference)
      | Some schema =>
          match GetOpenWrtState oncConfig dev schema with
          | Panic p => ([], Some p)
          | Ok state =>
              let commands := GetDeviceScript state None in
              let rest :=
                printUciCommandsCmd_loop oncConfig deviceSchemas devices in
              (("# device " +:+ Hostname dev) :: commands ++ rest.1, rest.2)
          end
      end
  end.

(** *** package ssh: the mock device *)

(** [MockClient.getInstalledPackages], as a function of [m.InstalledPkgs]. *)
Definition getInstalledPackages (InstalledPkgs : list string) : string :=
  foldl (λ output pkg, output +:+ pkg +:+ " - 1.0.0" +:+ newline)
        EmptyString InstalledPkgs.

(** *** package device: schema.go *)

(** The loop of [splitLines]; [current] is [s[start:i]]. *)
Fixpoint splitLines_loop (s current : string) : list string :=
  match s with
  | EmptyString =>
      match current with
      | EmptyString => []
      | _ => [current]
      end
  | String c rest =>
      if bool_decide (c = "010"%char)
      then current :: splitLines_loop rest EmptyString
      else splitLines_loop rest (current +:+ String c EmptyString)
  end.

Definition splitLines (s : string) : list string :=
  splitLines_loop s EmptyString.

(** ** Notions used to state the properties *)

(** What a snapshot of installed packages leaves of the two directive
    lists: the uninstall names that are installed, the install directives
    whose name is not. *)
Definition remainingUninstall (packagesToUninstall : list string)
    (installedPackages : option (list InstalledPackage)) : list string :=
  match installedPackages with
  | Some installed =>
      filter (λ name, name ∈ InstalledPackage_Name <$> installed)
             packagesToUninstall
  | None => packagesToUninstall
  end.

Definition remainingInstall (packagesToInstall : list Package)
    (installedPackages : option (list InstalledPackage)) : list Package :=
  match installedPackages with
  | Some installed =>
      filter (λ pkg, Package_Name pkg ∉ InstalledPackage_Name <$> installed)
             packagesToInstall
  | None => packagesToInstall
  end.

Definition removeCommand (names : list string) : list string :=
  match names with
  | [] => []
  | _ => ["opkg remove --force-removal-of-dependent-packages "
            +:+ Join names " "]
  end.

Definition installCommand (names : list string) : list string :=
  match names with
  | [] => []
  | _ => ["opkg update;"; "opkg install " +:+ Join names " "]
  end.

(** The fields [applyObject] copies from a node before it looks at the
    overrides: all but [.if] and [.overrides]. *)
Definition ownFields (obj : gmap string any) : gmap string any :=
  filter (λ kv, kv.1 ≠ ".if" ∧ kv.1 ≠ ".overrides") obj.

(** Whether the own [.if] of a node holds: the value of the condition when
    the node has a string under [.if]; true when it has no [.if], or one
    that is not a string. *)
Definition ifHolds (ctx : ConditionContext) (node : gmap string any)
    : outcome bool :=
  match node !! ".if" with
  | Some (Str condition) => Evaluate (Some condition) ctx
  | _ => Ok true
  end.

(** The override object of an [.overrides] entry that applies: the entry is
    an object, its own [.if] holds, and its "override" is an object. *)
Definition matchingOverride (ctx : ConditionContext) (override : any)
    : option (gmap string any) :=
  match override with
  | Obj overrideMap =>
      match ifHolds ctx overrideMap with
      | Ok true =>
          match overrideMap !! "override" with
          | Some (Obj overrideData) => Some overrideData
          | _ => None
          end
      | _ => None
      end
  | _ => None
  end.

(** An [.overrides] entry whose own [.if] can be evaluated; an entry that is
    not an object has none. *)
Definition overrideEvaluates (ctx : ConditionContext) (override : any)
    : Prop :=
  match override with
  | Obj overrideMap => ∃ b, ifHolds ctx overrideMap = Ok b
  | _ => True
  end.

(** Field-by-field overwrite of [result] by [overrideData]. *)
Definition overwrite (result overrideData : gmap string any)
    : gmap string any :=
  overrideData ∪ result.

(** An [ONCConfig] whose [Config.Extra] is replaced. *)
Definition withExtra (extra : gmap string any) (oncConfig : ONCConfig)
    : ONCConfig :=
  {| Devices := Devices oncConfig;
     PackageProfiles := PackageProfiles oncConfig;
     ONCConfig_ConfigsToNotReset := ONCConfig_ConfigsToNotReset oncConfig;
     Config :=
       {| System := System (Config oncConfig);
          Network := Network (Config oncConfig);
          Firewall := Firewall (Config oncConfig);
          DHCP := DHCP (Config oncConfig);
          Wireless := Wireless (Config oncConfig);
          Dropbear := Dropbear (Config oncConfig);
          Extra := extra |} |}.

(** The raw tokens that reach the token set of [resolvePackages]: those of
    the profiles whose condition evaluates to true, in profile order. *)
Definition matchingTokens (oncConfig : ONCConfig) (ctx : ConditionContext)
    : list string :=
  (filter (λ profile, Evaluate (PackageProfile_If profile) ctx = Ok true)
          (PackageProfiles oncConfig))
  ≫= Packages.

(** Whether a string contains the byte '@'. *)
Fixpoint hasAt (s : string) : bool :=
  match s with
  | EmptyString => false
  | String c rest => bool_decide (c = "@"%char) || hasAt rest
  end.

(** The text before the first '@' of a string, and the text after it when
    there is one. *)
Fixpoint cutAt (s : string) : string * option string :=
  match s with
  | EmptyString => (EmptyString, None)
  | String c rest =>
      if bool_decide (c = "@"%char) then (EmptyString, Some rest)
      else (String c (cutAt rest).1, (cutAt rest).2)
  end.

(** The install directive of a raw token: its name is the text before the
    first '@', its version the text between the first '@' and the second. *)
Definition installDirective (token : string) : Package :=
  {| Package_Name := (cutAt token).1;
     Package_Version := match (cutAt token).2 with
                        | Some rest => (cutAt rest).1
                        | None => EmptyString
                        end |}.

(** The value of a literal text: what [json.Unmarshal] decodes it to, and
    the text itself as a string when it is not JSON. *)
Definition decodeOrRaw (text : string) : any :=
  match Unmarshal text with
  | Some value => value
  | None => Str text
  end.

(** The fact paths that every device defines. *)
Definition builtinPaths : list string :=
  ["device.hostname"; "device.ipaddr"; "device.model_id"; "device.version";
   "device.sw_config"].

(** A path outside the fact namespace of a device: not built in, and not
    "device.tag.<key>" for a tag the device defines. *)
Definition absentPath (ctx : ConditionContext) (path : string) : Prop :=
  (path ∉ builtinPaths)
  ∧ ∀ tagKey : string,
      path = "device.tag." +:+ tagKey →
      Tags (ctx_DeviceConfig ctx) !! tagKey = None.

(** The two sides of a comparison, as [evaluateComparison] finds them: split
    at the first "==" outside quotes, or else at the first "!=". *)
Definition comparisonSides (expr : string) : option (string * string) :=
  let expr := TrimSpace expr in
  match splitComparison expr "==" with
  | [part0; part1] => Some (TrimSpace part0, TrimSpace part1)
  | _ =>
      match splitComparison expr "!=" with
      | [part0; part1] => Some (TrimSpace part0, TrimSpace part1)
      | _ => None
      end
  end.

(** A quote character: a single or a double quote. *)
Definition quoteChar (c : ascii) : bool :=
  bool_decide (c = "'"%char ∨ c = "034"%char).




(** Whether a string contains a given byte. *)
Fixpoint containsByte (b : ascii) (s : string) : bool :=
  match s with
  | EmptyString => false
  | String c rest => bool_decide (c = b) || containsByte b rest
  end.

(** Whether [sub] occurs in [s], at any position. *)
Fixpoint occursIn (sub s : string) : bool :=
  HasPrefix s sub
  || match s with
     | EmptyString => false
     | String _ rest => occursIn sub rest
     end.

(** What [resolveConfig] keeps of one element of a section list: the
    resolved object, for an object that [applyObject] resolves to a
    non-empty object; nothing otherwise. *)
Definition survivingSection (ctx : ConditionContext) (section : any)
    : option any :=
  match section with
  | Obj sectionMap =>
      match applyObject sectionMap ctx with
      | Ok resolvedSection =>
          if bool_decide (0 < size resolvedSection)
          then Some (Obj resolvedSection)
          else None
      | Panic _ => None
      end
  | _ => None
  end.

(** The exemptions that apply to a device: those of the entries of
    "configs_to_not_reset" whose condition evaluates to true, in order. *)
Definition matchingExemptions (oncConfig : ONCConfig)
    (ctx : ConditionContext) : list string :=
  (filter (λ item, Evaluate (ConfigsToNotReset_If item) ctx = Ok true)
          (ONCConfig_ConfigsToNotReset oncConfig))
  ≫= Configs.

(** A named section of a tree: an object with a string under [.name], in
    the list of a section type of a group. *)
Definition namedSection (openWrtConfig : gmap string any)
    (configKey sectionKey sectionName : string)
    (sectionMap : gmap string any) : Prop :=
  ∃ (configMap : gmap string any) (sections : list any),
    openWrtConfig !! configKey = Some (Obj configMap)
    ∧ configMap !! sectionKey = Some (Arr sections)
    ∧ Obj sectionMap ∈ sections
    ∧ sectionMap !! ".name" = Some (Str sectionName).

(** The command that creates a section. *)
Definition createsSection (configKey sectionKey sectionName : string)
    : string :=
  "uci set " +:+ (configKey +:+ "." +:+ sectionName) +:+ "=" +:+ sectionKey.

(** A command that sets the option [key] of a section, or adds an element
    to it. *)
Definition setsOption (configKey sectionName key command : string) : Prop :=
  HasPrefix command
    ("uci set " +:+ (configKey +:+ "." +:+ sectionName) +:+ "." +:+ key
       +:+ "='")
  = true
  ∨ HasPrefix command
      ("uci add_list " +:+ (configKey +:+ "." +:+ sectionName) +:+ "." +:+ key
         +:+ "='")
    = true.

(** The block of commands of a named section of a tree: the command that
    creates the section, then commands that set options of that section
    only, each for a field of the section other than [.name]. *)
Definition isSectionBlock (openWrtConfig : gmap string any)
    (block : list string) : Prop :=
  ∃ (configKey sectionKey sectionName : string)
    (sectionMap : gmap string any) (properties : list string),
    namedSection openWrtConfig configKey sectionKey sectionName sectionMap
    ∧ block = createsSection configKey sectionKey sectionName :: properties
    ∧ Forall (λ command,
                ∃ key : string,
                  is_Some (sectionMap !! key) ∧ key ≠ ".name"
                  ∧ setsOption configKey sectionName key command)
             properties.

(** ** Properties *)

(** *** Strings *)

Lemma append_cons (c : ascii) (s t : string) :
  String c s +:+ t = String c (s +:+ t).
Proof. reflexivity. Qed.

Lemma append_empty_r (s : string) : s +:+ EmptyString = s.
Proof. induction s as [|c s IH]; [done | by rewrite append_cons, IH]. Qed.

Lemma append_assoc (s1 s2 s3 : string) :
  (s1 +:+ s2) +:+ s3 = s1 +:+ (s2 +:+ s3).
Proof.
  induction s1 as [|c s1 IH]; [done | by rewrite !append_cons, IH].
Qed.

(** *** The package commands *)

Lemma pkgList_loop (f : nat → nat) (acc : string) (names : list string) :
  (∀ i, 0 < f i) →
  foldl (λ pkgList (ip : nat * string),
           (if bool_decide (0 < ip.1) then pkgList +:+ " " else pkgList)
             +:+ ip.2)
        acc (imap (λ i, pair (f i)) names)
  = acc +:+ foldr (λ name rest, " " +:+ name +:+ rest) EmptyString names.
Proof.
  intros Hf. revert f Hf acc.
  induction names as [|name names IH]; intros f Hf acc; simpl.
  - by rewrite append_empty_r.
  - rewrite bool_decide_eq_true_2 by apply Hf.
    rewrite (IH (f ∘ S)) by (intros i; apply Hf).
    by rewrite !append_assoc.
Qed.

Lemma Join_cons (name : string) (names : list string) :
  Join (name :: names) " "
  = name +:+ foldr (λ name rest, " " +:+ name +:+ rest) EmptyString names.
Proof.
  revert name. induction names as [|name' names IH]; intros name.
  - simpl. by rewrite append_empty_r.
  - change (Join (name :: name' :: names) " ")
      with (name +:+ " " +:+ Join (name' :: names) " ").
    by rewrite IH.
Qed.

Lemma pkgList_Join (names : list string) : pkgList names = Join names " ".
Proof.
  destruct names as [|name names]; [done|].
  rewrite Join_cons. unfold pkgList. simpl.
  apply (pkgList_loop S). lia.
Qed.

Lemma existsb_name {A} (f : A → string) (name : string) (l : list A) :
  existsb (λ x, bool_decide (f x = name)) l = bool_decide (name ∈ f <$> l).
Proof.
  induction l as [|x l IH]; simpl.
  - done.
  - rewrite IH. destruct (decide (f x = name)) as [Heq|Hne].
    + rewrite (bool_decide_eq_true_2 _ Heq). simpl. symmetry.
      apply bool_decide_eq_true_2. rewrite Heq. apply list_elem_of_here.
    + rewrite (bool_decide_eq_false_2 _ Hne). simpl.
      apply bool_decide_ext. rewrite elem_of_cons.
      split; [by right | by intros [->|?]].
Qed.

Lemma if_nonempty {A B} (l : list A) (x y : B) :
  (if bool_decide (0 < length l) then x else y)
  = match l with [] => y | _ => x end.
Proof. by destruct l. Qed.

(** [GetPackageCommands] in closed form. *)
Lemma GetPackageCommands_closed (packagesToInstall : list Package)
    (packagesToUninstall : list string)
    (installedPackages : option (list InstalledPackage)) :
  GetPackageCommands packagesToInstall packagesToUninstall installedPackages
  = removeCommand (remainingUninstall packagesToUninstall installedPackages)
    ++ installCommand
         (Package_Name <$> remainingInstall packagesToInstall installedPackages).
Proof.
  unfold GetPackageCommands, remainingUninstall, remainingInstall.
  destruct installedPackages as [installed|].
  - rewrite !if_nonempty, !pkgList_Join.
    assert (filter (λ pkg, existsb
               (λ i, bool_decide (InstalledPackage_Name i = pkg)) installed
               = true) packagesToUninstall
            = filter (λ name, name ∈ InstalledPackage_Name <$> installed)
                packagesToUninstall) as ->.
    { apply list_filter_iff. intros name. rewrite existsb_name.
      by rewrite bool_decide_eq_true. }
    assert (filter (λ pkg, existsb
               (λ i, bool_decide (InstalledPackage_Name i = Package_Name pkg))
               installed = false) packagesToInstall
            = filter (λ pkg, Package_Name pkg
                               ∉ InstalledPackage_Name <$> installed)
                packagesToInstall) as ->.
    { apply list_filter_iff. intros pkg. rewrite existsb_name.
      by rewrite bool_decide_eq_false. }
    unfold removeCommand, installCommand. f_equal; by case_match.
  - rewrite !if_nonempty, !pkgList_Join.
    unfold removeCommand, installCommand. f_equal; by case_match.
Qed.

(** C3 (as amended): the removal command and the install command of
    [GetPackageCommands] list the package names in the order of the
    directive lists they are given, restricted to what the installed
    snapshot leaves; nothing is sorted. *)
Theorem GetPackageCommands_keeps_order (packagesToInstall : list Package)
    (packagesToUninstall : list string)
    (installedPackages : option (list InstalledPackage)) :
  GetPackageCommands packagesToInstall packagesToUninstall installedPackages
  = removeCommand (remainingUninstall packagesToUninstall installedPackages)
    ++ installCommand
         (Package_Name <$> remainingInstall packagesToInstall installedPackages)
  ∧ remainingUninstall packagesToUninstall installedPackages
      `sublist_of` packagesToUninstall
  ∧ remainingInstall packagesToInstall installedPackages
      `sublist_of` packagesToInstall.
Proof.
  split; [apply GetPackageCommands_closed|].
  unfold remainingUninstall, remainingInstall.
  destruct installedPackages; split; done || apply sublist_filter.
Qed.

Lemma remainingInstall_names (packagesToInstall : list Package)
    (installedPackages : option (list InstalledPackage)) :
  Package_Name <$> remainingInstall packagesToInstall installedPackages
  = match installedPackages with
    | Some installed =>
        filter (λ name, name ∉ InstalledPackage_Name <$> installed)
               (Package_Name <$> packagesToInstall)
    | None => Package_Name <$> packagesToInstall
    end.
Proof.
  unfold remainingInstall. destruct installedPackages as [installed|]; [|done].
  induction packagesToInstall as [|pkg l IH]; [done|].
  rewrite fmap_cons, !filter_cons. case_decide; by rewrite ?fmap_cons, IH.
Qed.

(** C10: the commands of [GetPackageCommands] depend on the names alone:
    two calls whose install directives carry the same names in the same
    order, and whose snapshots list the same names, produce the same
    commands, whatever the versions on either side. *)
Theorem GetPackageCommands_ignores_versions
    (packagesToInstall packagesToInstall' : list Package)
    (packagesToUninstall : list string)
    (installedPackages installedPackages' : option (list InstalledPackage)) :
  Package_Name <$> packagesToInstall = Package_Name <$> packagesToInstall' →
  fmap (M:=list) InstalledPackage_Name <$> installedPackages
    = fmap (M:=list) InstalledPackage_Name <$> installedPackages' →
  GetPackageCommands packagesToInstall packagesToUninstall installedPackages
  = GetPackageCommands packagesToInstall' packagesToUninstall
      installedPackages'.
Proof.
  intros Hnames Hinstalled. rewrite !GetPackageCommands_closed.
  rewrite !remainingInstall_names, Hnames. unfold remainingUninstall.
  destruct installedPackages as [installed|],
    installedPackages' as [installed'|]; simplify_eq/=; [|done].
  by replace (InstalledPackage_Name <$> installed)
    with (InstalledPackage_Name <$> installed').
Qed.

(** *** Loops over maps and lists *)

Lemma foldM_cons {A S} (f : S → A → outcome S) (s : S) (x : A) (l : list A) :
  foldM f s (x :: l) = f s x ≫= λ s', foldM f s' l.
Proof. reflexivity. Qed.

Lemma range_NoDup_keys {A} (m : gmap string A) : NoDup (range o m).*1.
Proof. rewrite (range_perm o A m). apply NoDup_fst_map_to_list. Qed.

Lemma list_to_map_range {A} (m : gmap string A) :
  list_to_map (range o m) = m.
Proof. symmetry. apply list_to_map_flip. symmetry. apply range_perm. Qed.

Lemma elem_of_range {A} (m : gmap string A) (k : string) (v : A) :
  (k, v) ∈ range o m ↔ m !! k = Some v.
Proof. rewrite (range_perm o A m). apply elem_of_map_to_list. Qed.

Lemma foldl_ext {A S} (f g : S → A → S) (s : S) (l : list A) :
  (∀ s x, f s x = g s x) → foldl f s l = foldl g s l.
Proof.
  intros Hfg. revert s. induction l as [|x l IH]; intros s; simpl; [done|].
  by rewrite Hfg, IH.
Qed.

(** A loop that stores at most one value under each visited key. *)
Lemma foldl_insert_lookup {A B} (f : string → A → option B)
    (l : list (string * A)) (r : gmap string B) (k : string) :
  NoDup l.*1 →
  foldl (λ r kv, match f kv.1 kv.2 with
                 | Some w => <[kv.1 := w]> r
                 | None => r
                 end) r l !! k
  = match (list_to_map l : gmap string A) !! k with
    | Some v => match f k v with Some w => Some w | None => r !! k end
    | None => r !! k
    end.
Proof.
  revert r. induction l as [|[k' v'] l IH]; intros r Hnodup; [done|].
  apply NoDup_cons in Hnodup as [Hk' Hnodup]. simpl.
  rewrite IH by done. destruct (decide (k = k')) as [->|Hne].
  - rewrite lookup_insert_eq.
    rewrite (not_elem_of_list_to_map_1 _ _ Hk').
    destruct (f k' v'); [by rewrite lookup_insert_eq | done].
  - rewrite lookup_insert_ne by done.
    assert (match f k' v' with
            | Some w => <[k' := w]> r
            | None => r
            end !! k = r !! k) as ->; [|done].
    destruct (f k' v'); [by rewrite lookup_insert_ne | done].
Qed.

(** The copy loop [for k, v := range m { result[k] = v }]. *)
Lemma foldl_insert_union {A} (l : list (string * A)) (r : gmap string A) :
  NoDup l.*1 →
  foldl (λ r kv, <[kv.1 := kv.2]> r) r l = list_to_map l ∪ r.
Proof.
  intros Hnodup. apply map_eq. intros k.
  pose proof (foldl_insert_lookup (λ _ v, Some v) l r k Hnodup) as Hl.
  simpl in Hl. rewrite Hl, lookup_union. by destruct (list_to_map l !! k), (r !! k).
Qed.

Lemma range_copy {A} (m r : gmap string A) :
  foldl (λ r kv, <[kv.1 := kv.2]> r) r (range o m) = m ∪ r.
Proof.
  rewrite foldl_insert_union by apply range_NoDup_keys.
  by rewrite list_to_map_range.
Qed.

(** The loop [for _, x := range l { set[x] = true }]. *)
Lemma foldl_set_lookup (l : list string) (set : gmap string bool)
    (k : string) :
  foldl (λ set x, <[x := true]> set) set l !! k
  = if decide (k ∈ l) then Some true else set !! k.
Proof.
  revert set. induction l as [|x l IH]; intros set; simpl; [done|].
  rewrite IH. destruct (decide (k ∈ l)) as [Hin|Hnin].
  - rewrite decide_True; [done | by right].
  - destruct (decide (k = x)) as [->|Hne].
    + rewrite lookup_insert_eq. rewrite decide_True; [done | by left].
    + rewrite lookup_insert_ne by done.
      rewrite decide_False; [done|]. rewrite elem_of_cons. by intros [?|?].
Qed.

Lemma index_bool_set (l : list string) (k : string) :
  index_bool (foldl (λ set x, <[x := true]> set) ∅ l) k
  = bool_decide (k ∈ l).
Proof.
  unfold index_bool. rewrite foldl_set_lookup.
  destruct (decide (k ∈ l)).
  - by rewrite bool_decide_eq_true_2.
  - by rewrite bool_decide_eq_false_2.
Qed.

(** The loop [for _, x := range l { if p(x) { acc = append(acc, x) } }]. *)
Lemma foldl_append_if {A} (p : A → bool) (acc l : list A) :
  foldl (λ acc x, if p x then acc ++ [x] else acc) acc l
  = acc ++ filter (λ x, p x = true) l.
Proof.
  revert acc. induction l as [|x l IH]; intros acc; simpl.
  - by rewrite app_nil_r.
  - rewrite IH, filter_cons. destruct (p x).
    + rewrite decide_True by done. by rewrite <- app_assoc.
    + by rewrite decide_False.
Qed.

(** *** The reset scope *)

(** C8: [getConfigSectionsToReset] maps a schema group to its section
    types that are not exempted by "<group>.<section-type>", in schema
    order; the group is absent when "<group>.*" is exempted, whatever
    else is, and when no section type is left. *)
Theorem getConfigSectionsToReset_lookup (deviceSchema : DeviceSchema)
    (configsToNotReset : list string) (configKey : string) :
  getConfigSectionsToReset deviceSchema configsToNotReset !! configKey
  = sectionKeys ← ConfigSections deviceSchema !! configKey;
    if decide (configKey +:+ ".*" ∈ configsToNotReset) then None
    else
      match filter (λ sectionKey,
                      configKey +:+ "." +:+ sectionKey ∉ configsToNotReset)
                   sectionKeys with
      | [] => None
      | sectionsToReset => Some sectionsToReset
      end.
Proof.
  unfold getConfigSectionsToReset.
  set (notResetSet := foldl _ ∅ configsToNotReset).
  pose (f := λ (key : string) (sectionKeys : list string),
    if index_bool notResetSet (key +:+ ".*") then None
    else match filter (λ sectionKey,
            negb (index_bool notResetSet (key +:+ "." +:+ sectionKey))
            = true) sectionKeys with
         | [] => None
         | sectionsToReset => Some sectionsToReset
         end).
  rewrite (foldl_ext _ (λ result kv,
    match f kv.1 kv.2 with
    | Some w => <[kv.1 := w]> result
    | None => result
    end)).
  2:{ intros result [key sectionKeys]. unfold f. simpl.
      destruct (index_bool notResetSet (key +:+ ".*")); [done|].
      rewrite foldl_append_if, app_nil_l, if_nonempty. by case_match. }
  rewrite (foldl_insert_lookup f) by apply range_NoDup_keys. unfold f.
  rewrite list_to_map_range, lookup_empty.
  destruct (ConfigSections deviceSchema !! configKey) as [sectionKeys|];
    [simpl|done].
  unfold notResetSet. rewrite index_bool_set.
  destruct (decide (configKey +:+ ".*" ∈ configsToNotReset)).
  { by rewrite bool_decide_eq_true_2. }
  rewrite bool_decide_eq_false_2 by done.
  rewrite (list_filter_iff _
    (λ sectionKey, configKey +:+ "." +:+ sectionKey ∉ configsToNotReset)).
  2:{ intros sectionKey. rewrite index_bool_set, negb_true_iff.
      by rewrite bool_decide_eq_false. }
  by case_match.
Qed.

(** *** Overrides *)

Lemma ownFields_loop (obj : gmap string any) :
  foldl (λ result kv,
           if bool_decide (kv.1 ≠ ".if") && bool_decide (kv.1 ≠ ".overrides")
           then <[kv.1 := kv.2]> result
           else result)
        ∅ (range o obj)
  = ownFields obj.
Proof.
  pose (f := λ (k : string) (v : any),
    if bool_decide (k ≠ ".if") && bool_decide (k ≠ ".overrides")
    then Some v else None).
  rewrite (foldl_ext _ (λ result kv,
    match f kv.1 kv.2 with
    | Some w => <[kv.1 := w]> result
    | None => result
    end)).
  2:{ intros result [k v]. unfold f. simpl. by case_match. }
  apply map_eq. intros k.
  rewrite (foldl_insert_lookup f) by apply range_NoDup_keys.
  rewrite list_to_map_range, lookup_empty. unfold ownFields, f.
  destruct (obj !! k) as [v|] eqn:Hk.
  - destruct (decide (k ≠ ".if" ∧ k ≠ ".overrides")) as [[H1 H2]|Hn].
    + rewrite !bool_decide_eq_true_2 by done. simpl. symmetry.
      by apply map_lookup_filter_Some.
    + assert (bool_decide (k ≠ ".if") && bool_decide (k ≠ ".overrides")
              = false) as ->.
      { apply andb_false_iff.
        destruct (decide (k = ".if")) as [->|?];
          [left | right]; apply bool_decide_eq_false_2; [by intros ?|].
        intros ?. by apply Hn. }
      symmetry. apply map_lookup_filter_None. right. intros v' _ ?. by apply Hn.
  - symmetry. apply map_lookup_filter_None. by left.
Qed.

Lemma Evaluate_conditionOf (ctx : ConditionContext) (node : gmap string any) :
  Evaluate (conditionOf node) ctx = ifHolds ctx node.
Proof.
  unfold conditionOf, ifHolds.
  by destruct (node !! ".if") as [[| | | | | |]|].
Qed.

Lemma applyOverride_Ok (ctx : ConditionContext) (result result' : gmap string any)
    (override : any) :
  applyOverride ctx result override = Ok result' →
  result' = match matchingOverride ctx override with
            | Some overrideData => overwrite result overrideData
            | None => result
            end.
Proof.
  unfold applyOverride, matchingOverride, overwrite.
  destruct override as [| | | | | |overrideMap]; try (by intros [= <-]).
  rewrite Evaluate_conditionOf.
  destruct (ifHolds ctx overrideMap) as [[|]|]; simpl;
    [|by intros [= <-]|done].
  destruct (overrideMap !! "override") as [[| | | | | |overrideData]|];
    try (by intros [= <-]).
  rewrite range_copy. by intros [= <-].
Qed.

Lemma applyOverride_evaluates (ctx : ConditionContext)
    (result : gmap string any) (override : any) :
  overrideEvaluates ctx override
  ↔ ∃ result', applyOverride ctx result override = Ok result'.
Proof.
  unfold applyOverride, overrideEvaluates.
  destruct override as [| | | | | |overrideMap];
    try (split; [by eexists | done]).
  rewrite Evaluate_conditionOf.
  destruct (ifHolds ctx overrideMap) as [b|p]; simpl.
  - split; [intros _ | by exists b].
    destruct b; [|by eexists].
    destruct (overrideMap !! "override") as [[| | | | | |overrideData]|];
      by eexists.
  - split; [by intros [b ?] | by intros [result' ?]].
Qed.

Lemma applyOverrides_Ok (ctx : ConditionContext) (overrides : list any)
    (result result' : gmap string any) :
  foldM (applyOverride ctx) result overrides = Ok result' →
  result' = foldl overwrite result (omap (matchingOverride ctx) overrides).
Proof.
  revert result. induction overrides as [|override overrides IH];
    intros result; simpl; [by intros [= <-]|].
  destruct (applyOverride ctx result override) as [result1|] eqn:Hstep;
    [simpl|done].
  intros Hrest. apply IH in Hrest as ->. apply applyOverride_Ok in Hstep as ->.
  by destruct (matchingOverride ctx override).
Qed.

Lemma applyOverrides_evaluate (ctx : ConditionContext) (overrides : list any)
    (result : gmap string any) :
  Forall (overrideEvaluates ctx) overrides
  ↔ ∃ result', foldM (applyOverride ctx) result overrides = Ok result'.
Proof.
  revert result. induction overrides as [|override overrides IH];
    intros result.
  - split; [by eexists | constructor].
  - rewrite foldM_cons, Forall_cons, (applyOverride_evaluates ctx result).
    split.
    + intros [[result1 Hstep] Hrest]. rewrite Hstep.
      by apply (IH result1).
    + destruct (applyOverride ctx result override) as [result1|];
        [|by intros [result' ?]].
      intros Hrest. split; [by eexists|]. by apply (IH result1).
Qed.

Lemma overwrite_lookup (result : gmap string any)
    (overrideDatas : list (gmap string any)) (field : string) :
  foldl overwrite result overrideDatas !! field
  = match last (omap (λ overrideData, overrideData !! field) overrideDatas) with
    | Some value => Some value
    | None => result !! field
    end.
Proof.
  induction overrideDatas as [|overrideData overrideDatas IH] using rev_ind;
    [done|].
  rewrite foldl_app, omap_app. simpl. unfold overwrite at 1.
  rewrite lookup_union, IH.
  destruct (overrideData !! field) as [value|]; simpl.
  - rewrite last_snoc. by rewrite union_Some_l.
  - rewrite app_nil_r. by rewrite (left_id_L None union).
Qed.

(** C7 (as amended): on a node that carries an [.overrides] list,
    [applyObject] looks at the overrides only when the node's own [.if]
    holds; when it does not, the result is the empty object, whatever the
    overrides, and when it cannot be evaluated, its panic.  When it holds,
    [applyObject] returns exactly when the own [.if] of every override can
    be evaluated, and it then returns the node's own fields overwritten,
    field by field, by the override object of every entry whose own [.if]
    evaluates to true, taken in list order; so a field has the value given
    by the last such entry that sets it, and the node's own value when none
    does. *)
Theorem applyObject_overrides_in_order (obj : gmap string any)
    (ctx : ConditionContext) (overrides : list any) :
  obj !! ".overrides" = Some (Arr overrides) →
  (∀ p : panic, ifHolds ctx obj = Panic p → applyObject obj ctx = Panic p)
  ∧ (ifHolds ctx obj = Ok false → applyObject obj ctx = Ok ∅)
  ∧ (ifHolds ctx obj = Ok true →
     (Forall (overrideEvaluates ctx) overrides
      ↔ ∃ result, applyObject obj ctx = Ok result)
     ∧ ∀ result : gmap string any,
         applyObject obj ctx = Ok result →
         result = foldl overwrite (ownFields obj)
                    (omap (matchingOverride ctx) overrides)
         ∧ ∀ field : string,
             result !! field
             = match last (omap (λ overrideData : gmap string any,
                                   overrideData !! field)
                                (omap (matchingOverride ctx) overrides)) with
               | Some value => Some value
               | None => ownFields obj !! field
               end).
Proof.
  intros Hoverrides. unfold applyObject.
  rewrite Evaluate_conditionOf. split; [by intros p ->|].
  split; intros ->; [done|].
  change (Ok true ≫= ?f) with (f true). cbv beta. cbn [negb].
  rewrite ownFields_loop, Hoverrides.
  split; [apply applyOverrides_evaluate|].
  intros result Happly. apply applyOverrides_Ok in Happly as ->.
  split; [done|]. intros field. apply overwrite_lookup.
Qed.

(** *** The groups of the resolved tree *)

Lemma resolveGroup_Ok (ctx : ConditionContext) (resolved resolved' : gmap string any)
    (configKey : string) (configValue : any) :
  resolveGroup ctx resolved (configKey, configValue) = Ok resolved' →
  resolved' = resolved
  ∨ (configKey ≠ "extra" ∧ ∃ v, resolved' = <[configKey := v]> resolved).
Proof.
  unfold resolveGroup. case_bool_decide as Hextra; [by intros [= <-]; left|].
  destruct configValue as [| | | | | |configObj]; try (by intros [= <-]; left).
  destruct (applyObject configObj ctx) as [appliedConfig|]; [simpl|done].
  case_bool_decide; [by intros [= <-]; left|].
  destruct (foldM (resolveSectionKey ctx) ∅ (range o appliedConfig))
    as [resolvedSections|]; [simpl|done].
  case_bool_decide; intros [= <-]; [right | by left].
  split; [done | by eexists].
Qed.

Lemma resolveGroups_keys (ctx : ConditionContext) (groups : list (string * any))
    (resolved resolved' : gmap string any) (key : string) :
  foldM (resolveGroup ctx) resolved groups = Ok resolved' →
  is_Some (resolved' !! key) →
  is_Some (resolved !! key) ∨ (key ∈ groups.*1 ∧ key ≠ "extra").
Proof.
  revert resolved. induction groups as [|[configKey configValue] groups IH];
    intros resolved; [simpl; intros [= <-]; by left|].
  rewrite foldM_cons, fmap_cons.
  destruct (resolveGroup ctx resolved (configKey, configValue))
    as [resolved1|] eqn:Hstep; simpl; [|done].
  intros Hrest Hkey. destruct (IH _ Hrest Hkey) as [Hin|[Hin Hne]].
  - apply resolveGroup_Ok in Hstep as [->|[Hne [v ->]]]; [by left|].
    destruct (decide (configKey = key)) as [->|Hdiff].
    + right. split; [by left | done].
    + rewrite lookup_insert_ne in Hin by done. by left.
  - right. split; [by right | done].
Qed.

Lemma marshalGroup_keys (key : string) (g : option (gmap string any))
    (m : gmap string any) (k : string) :
  is_Some (marshalGroup key g m !! k) → k = key ∨ is_Some (m !! k).
Proof.
  unfold marshalGroup. destruct g as [obj|]; [|by right].
  destruct (decide (key = k)) as [->|Hne]; [by left|].
  rewrite lookup_insert_ne by done. by right.
Qed.

Lemma marshalConfig_keys (c : ConfigConfig) (k : string) :
  is_Some (marshalConfig c !! k) → k ∈ knownFields.
Proof.
  unfold marshalConfig, knownFields. intros H.
  repeat (apply marshalGroup_keys in H as [->|H];
          [apply (bool_decide_unpack _); by vm_compute|]).
  rewrite lookup_empty in H. by destruct H.
Qed.

(** C9 (as amended): [resolveConfig] leaves the "extra" group out.  The
    resolved tree has no "extra" key, its keys are among the six known
    groups, and the result does not depend on [Config.Extra], which is
    therefore never evaluated. *)
Theorem resolveConfig_drops_extra (oncConfig : ONCConfig)
    (ctx : ConditionContext) (resolved : gmap string any) :
  resolveConfig oncConfig ctx = Ok resolved →
  resolved !! "extra" = None
  ∧ (∀ key : string, is_Some (resolved !! key) → key ∈ knownFields)
  ∧ ∀ extra : gmap string any,
      resolveConfig (withExtra extra oncConfig) ctx = Ok resolved.
Proof.
  intros Hresolve. split; [|split].
  - apply eq_None_not_Some. intros Hsome.
    destruct (resolveGroups_keys _ _ _ _ _ Hresolve Hsome) as [H|[_ H]];
      [|done].
    rewrite lookup_empty in H. by destruct H.
  - intros key Hsome.
    destruct (resolveGroups_keys _ _ _ _ _ Hresolve Hsome) as [H|[H _]].
    { rewrite lookup_empty in H. by destruct H. }
    apply marshalConfig_keys with (c := Config oncConfig).
    apply list_elem_of_fmap in H as [[k v] [-> H]].
    apply elem_of_range in H. by exists v.
  - intros extra. exact Hresolve.
Qed.

(** *** The package plan *)

Lemma collect_tokens (ctx : ConditionContext) (profiles : list PackageProfile)
    (acc allPackages : list string) :
  foldM (λ allPackages profile,
           b ← Evaluate (PackageProfile_If profile) ctx;
           Ok (if b : bool then allPackages ++ Packages profile
               else allPackages))
        acc profiles = Ok allPackages →
  allPackages
  = acc ++ (filter (λ profile,
                      Evaluate (PackageProfile_If profile) ctx = Ok true)
                   profiles ≫= Packages).
Proof.
  revert acc. induction profiles as [|profile profiles IH]; intros acc.
  - simpl. intros [= <-]. by rewrite app_nil_r.
  - rewrite foldM_cons, filter_cons.
    destruct (Evaluate (PackageProfile_If profile) ctx) as [[|]|]; simpl;
      [| |done]; intros Hrest; apply IH in Hrest as ->.
    + symmetry. apply app_assoc.
    + done.
Qed.

Lemma HasPrefix_char (a c : ascii) (rest : string) :
  HasPrefix (String c rest) (String a EmptyString) = bool_decide (a = c).
Proof.
  unfold HasPrefix.
  change (String.prefix (String a EmptyString) (String c rest))
    with (if ascii_dec a c then String.prefix EmptyString rest else false).
  destruct (ascii_dec a c) as [Heq|Hne].
  - rewrite (bool_decide_eq_true_2 _ Heq). by destruct rest.
  - by rewrite (bool_decide_eq_false_2 _ Hne).
Qed.

Lemma HasPrefix_dash (token : string) :
  HasPrefix token "-" = true → token = "-" +:+ slice_from 1 token.
Proof.
  destruct token as [|c rest]; [done|]. rewrite HasPrefix_char.
  by intros <-%bool_decide_eq_true.
Qed.

Lemma HasPrefix_dash_app (name : string) : HasPrefix ("-" +:+ name) "-" = true.
Proof. rewrite append_cons, HasPrefix_char. by apply bool_decide_eq_true_2. Qed.

Lemma split_go_step (sep : string) (c : ascii) (rest current : string) :
  split_go sep (String c rest) 0 current
  = if HasPrefix (String c rest) sep
    then current :: split_go sep rest (len sep - 1) EmptyString
    else split_go sep rest 0 (current +:+ String c EmptyString).
Proof. reflexivity. Qed.

Lemma cutAt_step (c : ascii) (rest : string) :
  cutAt (String c rest)
  = if bool_decide (c = "@"%char) then (EmptyString, Some rest)
    else (String c (cutAt rest).1, (cutAt rest).2).
Proof. reflexivity. Qed.

Lemma split_go_cutAt (s current : string) :
  split_go "@" s 0 current
  = match (cutAt s).2 with
    | Some rest =>
        (current +:+ (cutAt s).1) :: split_go "@" rest 0 EmptyString
    | None => [current +:+ (cutAt s).1]
    end.
Proof.
  revert current. induction s as [|c s IH]; intros current.
  - simpl. by rewrite append_empty_r.
  - rewrite split_go_step, cutAt_step, HasPrefix_char.
    destruct (decide (c = "@"%char)) as [->|Hne].
    + rewrite !bool_decide_eq_true_2 by done. simpl.
      by rewrite append_empty_r.
    + rewrite (bool_decide_eq_false_2 _ Hne).
      rewrite bool_decide_eq_false_2 by (by intros <-). simpl.
      rewrite IH, append_assoc. by destruct ((cutAt s).2).
Qed.

Lemma Split_cutAt (s : string) :
  Split s "@"
  = match (cutAt s).2 with
    | Some rest => (cutAt s).1 :: Split rest "@"
    | None => [(cutAt s).1]
    end.
Proof. unfold Split. by rewrite split_go_cutAt. Qed.

Lemma parseToken_eq (install : list Package) (uninstall : list string)
    (token : string) :
  parseToken (install, uninstall) token
  = if HasPrefix token "-" then (install, uninstall ++ [slice_from 1 token])
    else (install ++ [installDirective token], uninstall).
Proof.
  unfold parseToken. destruct (HasPrefix token "-") eqn:Hdash.
  - rewrite bool_decide_eq_true_2; [done|].
    apply HasPrefix_dash in Hdash. rewrite Hdash. simpl. lia.
  - rewrite andb_false_r. unfold installDirective.
    rewrite (Split_cutAt token).
    destruct ((cutAt token).2) as [rest|]; [|done].
    rewrite (Split_cutAt rest). by destruct ((cutAt rest).2).
Qed.

Lemma foldl_parseToken (tokens : list string) (install : list Package)
    (uninstall : list string) :
  foldl parseToken (install, uninstall) tokens
  = (install ++ (installDirective
                   <$> filter (λ token, HasPrefix token "-" = false) tokens),
     uninstall ++ (slice_from 1
                     <$> filter (λ token, HasPrefix token "-" = true) tokens)).
Proof.
  revert install uninstall.
  induction tokens as [|token tokens IH]; intros install uninstall.
  - simpl. by rewrite !app_nil_r.
  - change (foldl parseToken (install, uninstall) (token :: tokens))
      with (foldl parseToken (parseToken (install, uninstall) token) tokens).
    rewrite parseToken_eq, !filter_cons.
    destruct (HasPrefix token "-"); rewrite IH.
    + rewrite decide_False, decide_True by done.
      by rewrite fmap_cons, <- app_assoc.
    + rewrite decide_True, decide_False by done.
      by rewrite fmap_cons, <- app_assoc.
Qed.

(** [resolvePackages] in closed form: the distinct matching tokens, in the
    order the run visits the token set, split by their sign. *)
Lemma resolvePackages_closed (oncConfig : ONCConfig) (ctx : ConditionContext)
    (install : list Package) (uninstall : list string) :
  resolvePackages oncConfig ctx = Ok (install, uninstall) →
  ∃ tokens : list string,
    NoDup tokens
    ∧ (∀ token, token ∈ tokens ↔ token ∈ matchingTokens oncConfig ctx)
    ∧ install
      = installDirective
          <$> filter (λ token, HasPrefix token "-" = false) tokens
    ∧ uninstall
      = slice_from 1 <$> filter (λ token, HasPrefix token "-" = true) tokens.
Proof.
  unfold resolvePackages.
  destruct (foldM _ [] (PackageProfiles oncConfig)) as [allPackages|] eqn:Hall;
    simpl; [|done].
  apply collect_tokens in Hall. rewrite app_nil_l in Hall.
  fold (matchingTokens oncConfig ctx) in Hall. subst allPackages.
  rewrite foldl_parseToken, !app_nil_l. intros [= <- <-].
  unfold range_keys.
  exists (range o (foldl (λ (packageSet : gmap string bool) pkg,
                            <[pkg := true]> packageSet)
                         ∅ (matchingTokens oncConfig ctx))).*1.
  split; [apply range_NoDup_keys|]. split; [|done].
  intros token. rewrite list_elem_of_fmap. split.
  - intros [[k v] [-> Hkv]]. apply elem_of_range in Hkv.
    rewrite foldl_set_lookup in Hkv. simpl. by case_decide.
  - intros Hin. exists (token, true). split; [done|].
    apply elem_of_range. rewrite foldl_set_lookup. by rewrite decide_True.
Qed.

Lemma elem_of_uninstall (tokens : list string) (name : string) :
  name ∈ slice_from 1 <$> filter (λ token, HasPrefix token "-" = true) tokens
  ↔ "-" +:+ name ∈ tokens.
Proof.
  rewrite list_elem_of_fmap. split.
  - intros [token [-> Hin]]. apply list_elem_of_filter in Hin as [Hdash Hin].
    by rewrite <- (HasPrefix_dash token Hdash).
  - intros Hin. exists ("-" +:+ name). split; [by destruct name|].
    apply list_elem_of_filter. split; [apply HasPrefix_dash_app | done].
Qed.

Lemma elem_of_install (tokens : list string) (p : Package) :
  p ∈ installDirective
        <$> filter (λ token, HasPrefix token "-" = false) tokens
  ↔ ∃ token, token ∈ tokens ∧ HasPrefix token "-" = false
             ∧ p = installDirective token.
Proof.
  rewrite list_elem_of_fmap. split.
  - intros [token [-> Hin]]. apply list_elem_of_filter in Hin as [Hdash Hin].
    by exists token.
  - intros [token [Hin [Hdash ->]]]. exists token. split; [done|].
    by apply list_elem_of_filter.
Qed.

Lemma cutAt_plain (name : string) :
  hasAt name = false → cutAt name = (name, None).
Proof.
  induction name as [|c name IH]; [done|]. simpl.
  intros [Hc Hrest]%orb_false_iff. rewrite Hc. by rewrite (IH Hrest).
Qed.

Lemma cutAt_app (name rest : string) :
  hasAt name = false → cutAt (name +:+ "@" +:+ rest) = (name, Some rest).
Proof.
  induction name as [|c name IH]; [done|].
  intros [Hc Hrest]%orb_false_iff.
  by rewrite append_cons, cutAt_step, Hc, (IH Hrest).
Qed.

(** C6 (as amended): a token that starts with '-' is an uninstall directive
    whose name is the token without that byte; any other token is an
    install directive, split on every '@': its name is the text before the
    first '@' and its version the text between the first '@' and the
    second, so that the token name@v1@v2 has version v1. *)
Theorem resolvePackages_directives (oncConfig : ONCConfig)
    (ctx : ConditionContext) (install : list Package)
    (uninstall : list string) :
  resolvePackages oncConfig ctx = Ok (install, uninstall) →
  (∀ name : string,
     name ∈ uninstall ↔ "-" +:+ name ∈ matchingTokens oncConfig ctx)
  ∧ (∀ p : Package,
       p ∈ install
       ↔ ∃ token, token ∈ matchingTokens oncConfig ctx
                  ∧ HasPrefix token "-" = false
                  ∧ p = installDirective token)
  ∧ (∀ name version rest : string,
       hasAt name = false → hasAt version = false →
       installDirective name
       = {| Package_Name := name; Package_Version := EmptyString |}
       ∧ installDirective (name +:+ "@" +:+ version)
         = {| Package_Name := name; Package_Version := version |}
       ∧ installDirective (name +:+ "@" +:+ version +:+ "@" +:+ rest)
         = {| Package_Name := name; Package_Version := version |}).
Proof.
  intros (tokens & _ & Htokens & -> & ->)%resolvePackages_closed.
  split; [|split].
  - intros name. by rewrite elem_of_uninstall, Htokens.
  - intros p. rewrite elem_of_install. by setoid_rewrite Htokens.
  - intros name version rest Hname Hversion. unfold installDirective.
    rewrite (cutAt_plain name Hname), !(cutAt_app name _ Hname). simpl.
    by rewrite (cutAt_plain version Hversion), (cutAt_app version _ Hversion).
Qed.

(** C1 (as amended): when a profile whose condition is true lists the token
    "-" followed by a package name (such as "-firewall4"), [resolvePackages]
    places that name in the uninstall list; the name is in the install list
    exactly when a profile whose condition is true also lists an install
    token for it (the bare name, or the name followed by '@'). *)
Theorem resolvePackages_dash_token (oncConfig : ONCConfig)
    (ctx : ConditionContext) (install : list Package)
    (uninstall : list string) (name : string) :
  resolvePackages oncConfig ctx = Ok (install, uninstall) →
  "-" +:+ name ∈ matchingTokens oncConfig ctx →
  name ∈ uninstall
  ∧ (name ∈ Package_Name <$> install
     ↔ ∃ token, token ∈ matchingTokens oncConfig ctx
                ∧ HasPrefix token "-" = false
                ∧ (cutAt token).1 = name).
Proof.
  intros (tokens & _ & Htokens & -> & ->)%resolvePackages_closed Hdash.
  split.
  - apply elem_of_uninstall. by apply Htokens.
  - rewrite list_elem_of_fmap. split.
    + intros [p [-> Hp]]. apply elem_of_install in Hp as (token & Hin & Hd & ->).
      exists token. by rewrite <- Htokens.
    + intros (token & Hin & Hd & <-). exists (installDirective token).
      split; [done|]. apply elem_of_install. exists token.
      by rewrite Htokens.
Qed.

(** *** Literals *)

Lemma len_append (s t : string) : len (s +:+ t) = len s + len t.
Proof.
  induction s as [|c s IH]; [done|].
  rewrite append_cons. unfold len in *. simpl. by rewrite IH.
Qed.

Lemma slice_to_append (s t : string) : slice_to (len s) (s +:+ t) = s.
Proof.
  induction s as [|c s IH]; [by destruct t|].
  rewrite append_cons. unfold len in *. simpl. by rewrite IH.
Qed.

Lemma rev_app_append (s t acc : string) :
  String.rev_app (s +:+ t) acc = String.rev_app t (String.rev_app s acc).
Proof.
  revert acc. induction s as [|c s IH]; intros acc; [done|].
  rewrite append_cons. simpl. by rewrite IH.
Qed.

Lemma HasSuffix_char (a : ascii) (s : string) :
  HasSuffix (s +:+ String a EmptyString) (String a EmptyString) = true.
Proof.
  unfold HasSuffix, String.rev. rewrite rev_app_append.
  change (String.rev_app (String a EmptyString) EmptyString)
    with (String a EmptyString).
  change (String.rev_app (String a EmptyString) (String.rev_app s EmptyString))
    with (String a (String.rev_app s EmptyString)).
  fold (HasPrefix (String a (String.rev_app s EmptyString)) (String a EmptyString)).
  rewrite HasPrefix_char. by apply bool_decide_eq_true_2.
Qed.

(** A text between two copies of a quote character is what [parseValue]
    strips the quotes from. *)
Lemma parseValue_strip (a : ascii) (text : string) :
  a = "'"%char ∨ a = "034"%char →
  let token := String a EmptyString +:+ text +:+ String a EmptyString in
  quoted token = true
  ∧ bool_decide (1 ≤ len token - 1) = true
  ∧ slice_to (len token - 2) (slice_from 1 token) = text.
Proof.
  intros Ha token. unfold token. rewrite append_cons.
  change (EmptyString +:+ text +:+ String a EmptyString)
    with (text +:+ String a EmptyString).
  split; [|split].
  - unfold quoted.
    change (String a (text +:+ String a EmptyString))
      with (String a text +:+ String a EmptyString).
    destruct Ha as [-> | ->].
    + change "'" with (String "'"%char EmptyString).
      by rewrite HasSuffix_char, append_cons, HasPrefix_char.
    + unfold dquote.
      rewrite HasSuffix_char, append_cons, !HasPrefix_char.
      by rewrite orb_true_r.
  - apply bool_decide_eq_true_2.
    change (len (String a (text +:+ String a EmptyString)))
      with (S (len (text +:+ String a EmptyString))).
    rewrite len_append. simpl. lia.
  - change (len (String a (text +:+ String a EmptyString)))
      with (S (len (text +:+ String a EmptyString))).
    rewrite len_append.
    replace (S (len text + len (String a EmptyString)) - 2) with (len text)
      by (simpl; lia).
    change (slice_from 1 (String a (text +:+ String a EmptyString)))
      with (text +:+ String a EmptyString).
    apply slice_to_append.
Qed.

(** C2 (as amended): [parseValue] removes the quotes of a token that is
    wrapped in a pair of single or of double quotes, and then treats the
    text between them as it treats an unquoted token: the text is decoded
    with the JSON grammar, and is a raw string only when it is not JSON.
    So quoting does not make a token a string. *)
Theorem parseValue_decodes (s text : string) :
  (quoted (TrimSpace s) = false ∧ text = TrimSpace s)
  ∨ (∃ q : string, q ∈ ["'"; dquote] ∧ TrimSpace s = q +:+ text +:+ q) →
  parseValue s = Ok (decodeOrRaw text).
Proof.
  unfold parseValue, decodeOrRaw. intros [[Hq ->]|(q & Hq & Htoken)].
  - rewrite Hq. simpl. by destruct (Unmarshal (TrimSpace s)).
  - rewrite Htoken.
    assert (∃ a, (a = "'"%char ∨ a = "034"%char) ∧ q = String a EmptyString)
      as (a & Ha & ->).
    { apply elem_of_cons in Hq as [->|Hq]; [by exists "'"%char; split; [left|]|].
      apply elem_of_cons in Hq as [->|Hq]; [|by apply elem_of_nil in Hq].
      exists "034"%char. split; [by right | done]. }
    destruct (parseValue_strip a text Ha) as (-> & -> & ->). simpl.
    by destruct (Unmarshal text).
Qed.

(** *** Conditions *)

Lemma foldl_tags_None (tags : list (string * any)) (mapping : gmap string any)
    (path : string) :
  foldl (λ mapping kv, <["device.tag." +:+ kv.1 := kv.2]> mapping) mapping tags
    !! path = None
  ↔ mapping !! path = None
    ∧ ∀ kv, kv ∈ tags → "device.tag." +:+ kv.1 ≠ path.
Proof.
  revert mapping. induction tags as [|kv tags IH]; intros mapping.
  - simpl. split; [intros H; split; [done|] | by intros [H _]].
    by intros kv' ?%elem_of_nil.
  - change (foldl ?f mapping (kv :: tags)) with (foldl f (f mapping kv) tags).
    rewrite IH, lookup_insert_None. split.
    + intros [[H1 H2] H3]. split; [done|].
      intros kv' [->|Hin]%elem_of_cons; [done | by apply H3].
    + intros [H1 H2]. split; [split; [done|] |].
      * apply H2. by left.
      * intros kv' Hin. apply H2. by right.
Qed.

(** The fact namespace is exactly what the specification lists. *)
Lemma buildLHSMapping_None (ctx : ConditionContext) (path : string) :
  buildLHSMapping ctx !! path = None ↔ absentPath ctx path.
Proof.
  unfold buildLHSMapping, absentPath, builtinPaths.
  rewrite foldl_tags_None, !lookup_insert_None, lookup_empty.
  rewrite !not_elem_of_cons. split.
  - intros [(((((_ & H1) & H2) & H3) & H4) & H5) Htags].
    split; [repeat split; congruence || apply not_elem_of_nil|].
    intros tagKey -> . apply eq_None_not_Some. intros [v Hv].
    apply (Htags (tagKey, v)); [by apply elem_of_range | done].
  - intros [(H1 & H2 & H3 & H4 & H5 & _) Htags].
    split; [repeat split; congruence|].
    intros [tagKey v] Hin%elem_of_range Heq. simpl in Heq.
    by rewrite (Htags tagKey (eq_sym Heq)) in Hin.
Qed.

Lemma evaluateComparison_absent (expr lhs rhs : string)
    (lhsMapping : gmap string any) :
  comparisonSides expr = Some (lhs, rhs) →
  lhsMapping !! lhs = None →
  evaluateComparison expr lhsMapping
  = Panic (InvalidConditionalParameter lhs).
Proof.
  unfold comparisonSides, evaluateComparison, compareParts.
  destruct (splitComparison (TrimSpace expr) "==")
    as [|a [|b [|c l]]]; try (by intros [= <- <-] ->);
    destruct (splitComparison (TrimSpace expr) "!=")
      as [|a' [|b' [|c' l']]]; try done; by intros [= <- <-] ->.
Qed.

Lemma allTrue_reaches (trueParts : list string) (part : string)
    (laterParts : list string) (lhsMapping : gmap string any) (p : panic) :
  Forall (λ truePart,
            evaluateComparison (TrimSpace truePart) lhsMapping = Ok true)
         trueParts →
  evaluateComparison (TrimSpace part) lhsMapping = Panic p →
  allTrue (trueParts ++ part :: laterParts) lhsMapping = Panic p.
Proof.
  intros Htrue Hpart. induction Htrue as [|truePart trueParts Hhd _ IH].
  - simpl. by rewrite Hpart.
  - simpl. by rewrite Hhd.
Qed.

Lemma anyGroup_reaches (falseGroups : list string) (group : string)
    (laterGroups : list string) (lhsMapping : gmap string any) (p : panic) :
  Forall (λ falseGroup,
            allTrue (splitByOperator falseGroup "&&") lhsMapping = Ok false)
         falseGroups →
  allTrue (splitByOperator group "&&") lhsMapping = Panic p →
  anyGroup (falseGroups ++ group :: laterGroups) lhsMapping = Panic p.
Proof.
  intros Hfalse Hgroup. induction Hfalse as [|falseGroup falseGroups Hhd _ IH].
  - simpl. by rewrite Hgroup.
  - simpl. by rewrite Hhd.
Qed.

(** *** Comparisons *)

Lemma compareScalar_eq (lhs rhs : any) :
  compareScalar lhs rhs = bool_decide (Sprint lhs = Sprint rhs).
Proof.
  destruct lhs as [|[|]| | | | |], rhs as [|[|]| | | | |];
    reflexivity || by vm_compute.
Qed.

(** X1: [compareScalar] is equality of the [%v] renderings of the two
    values, for every pair of values: the special case for two booleans
    never changes the result, and a boolean fact equals the literal that
    renders alike (the string true, for instance). *)
Theorem compareScalar_Sprint (lhs rhs : any) :
  compareScalar lhs rhs = bool_decide (Sprint lhs = Sprint rhs).
Proof. apply compareScalar_eq. Qed.

Lemma existsb_elem_of {A} (p : A → bool) (l : list A) :
  existsb p l = true ↔ ∃ x, x ∈ l ∧ p x = true.
Proof.
  induction l as [|x l IH]; simpl.
  - split; [done | by intros [x [?%elem_of_nil _]]].
  - rewrite orb_true_iff, IH. split.
    + intros [Hx|[y [Hy Hp]]]; [exists x | exists y]; split;
        try done; [by left | by right].
    + intros [y [[->|Hy]%elem_of_cons Hp]]; [by left | right; by exists y].
Qed.

(** X2: [compareValues] with [!=] is the negation of [compareValues] with
    [==], for every pair of values.  [==] on a multi-valued fact holds when
    some element renders like the literal (so [!=] holds when none does);
    on any other fact it holds when the fact renders like the literal. *)
Theorem compareValues_semantics (lhs rhs : any) :
  compareValues lhs rhs false = negb (compareValues lhs rhs true)
  ∧ (compareValues lhs rhs true = true
     ↔ match lhs with
       | Arr items => ∃ item, item ∈ items ∧ Sprint item = Sprint rhs
       | Strs items => ∃ item, item ∈ items ∧ item = Sprint rhs
       | _ => Sprint lhs = Sprint rhs
       end).
Proof.
  split; [by destruct lhs|].
  destruct lhs as [|b|f|s|items|items|m]; unfold compareValues;
    cbv beta iota zeta;
    try (rewrite compareScalar_eq; apply bool_decide_eq_true).
  - rewrite existsb_elem_of. split; intros [item [Hin Hitem]]; exists item.
    + rewrite compareScalar_eq in Hitem. by apply bool_decide_eq_true in Hitem.
    + rewrite compareScalar_eq. split; [done | by apply bool_decide_eq_true_2].
  - rewrite existsb_elem_of. split; intros [item [Hin Hitem]]; exists item.
    + rewrite compareScalar_eq in Hitem. by apply bool_decide_eq_true in Hitem.
    + rewrite compareScalar_eq. split; [done | by apply bool_decide_eq_true_2].
Qed.

(** *** Expressions *)

Lemma allTrue_forallb (value : string → bool) (andParts : list string)
    (lhsMapping : gmap string any) :
  Forall (λ andPart,
            evaluateComparison (TrimSpace andPart) lhsMapping
            = Ok (value andPart))
         andParts →
  allTrue andParts lhsMapping = Ok (forallb value andParts).
Proof.
  induction 1 as [|andPart andParts Hhd _ IH]; [done|].
  simpl. rewrite Hhd. by destruct (value andPart).
Qed.

Lemma anyGroup_existsb (value : string → bool) (orParts : list string)
    (lhsMapping : gmap string any) :
  Forall (λ orPart,
            Forall (λ andPart,
                      evaluateComparison (TrimSpace andPart) lhsMapping
                      = Ok (value andPart))
                   (splitByOperator orPart "&&"))
         orParts →
  anyGroup orParts lhsMapping
  = Ok (existsb (λ orPart, forallb value (splitByOperator orPart "&&"))
                orParts).
Proof.
  induction 1 as [|orPart orParts Hhd _ IH]; [done|].
  simpl. rewrite (allTrue_forallb value _ _ Hhd).
  by destruct (forallb value (splitByOperator orPart "&&")).
Qed.

(** X3: when every comparison of a condition evaluates without a panic,
    [evaluateExpression] is the OR, over the groups separated by "||", of
    the AND, over the comparisons separated by "&&", of their values. *)
Theorem evaluateExpression_or_of_ands (value : string → bool) (expr : string)
    (lhsMapping : gmap string any) :
  Forall (λ orPart,
            Forall (λ andPart,
                      evaluateComparison (TrimSpace andPart) lhsMapping
                      = Ok (value andPart))
                   (splitByOperator orPart "&&"))
         (splitByOperator expr "||") →
  evaluateExpression expr lhsMapping
  = Ok (existsb (λ orPart, forallb value (splitByOperator orPart "&&"))
                (splitByOperator expr "||")).
Proof. apply anyGroup_existsb. Qed.

(** *** The fact namespace *)

Lemma foldl_tags_other (tags : list (string * any))
    (mapping : gmap string any) (path : string) :
  (∀ kv, kv ∈ tags → "device.tag." +:+ kv.1 ≠ path) →
  foldl (λ mapping kv, <["device.tag." +:+ kv.1 := kv.2]> mapping) mapping tags
    !! path = mapping !! path.
Proof.
  revert mapping. induction tags as [|kv tags IH]; intros mapping Hne; [done|].
  change (foldl ?f mapping (kv :: tags)) with (foldl f (f mapping kv) tags).
  rewrite IH by (intros kv' Hin; apply Hne; by right).
  apply lookup_insert_ne. apply Hne. by left.
Qed.

Lemma foldl_tags_lookup (tags : list (string * any))
    (mapping : gmap string any) (tagKey : string) :
  NoDup tags.*1 →
  foldl (λ mapping kv, <["device.tag." +:+ kv.1 := kv.2]> mapping) mapping tags
    !! ("device.tag." +:+ tagKey)
  = match (list_to_map tags : gmap string any) !! tagKey with
    | Some value => Some value
    | None => mapping !! ("device.tag." +:+ tagKey)
    end.
Proof.
  revert mapping. induction tags as [|[k v] tags IH]; intros mapping Hnodup;
    [done|].
  apply NoDup_cons in Hnodup as [Hk Hnodup].
  change (foldl ?f mapping ((k, v) :: tags))
    with (foldl f (f mapping (k, v)) tags).
  rewrite IH by done. simpl. destruct (decide (k = tagKey)) as [->|Hne].
  - rewrite lookup_insert_eq, (not_elem_of_list_to_map_1 _ _ Hk).
    by rewrite lookup_insert_eq.
  - rewrite (lookup_insert_ne (list_to_map tags)) by done.
    destruct (list_to_map tags !! tagKey); [done|].
    apply lookup_insert_ne. by intros ?%(inj (String.app _)).
Qed.

Lemma tag_path_not_builtin (tagKey path : string) :
  path ∈ builtinPaths → "device.tag." +:+ tagKey ≠ path.
Proof.
  unfold builtinPaths. rewrite !elem_of_cons, elem_of_nil.
  intros [->|[->|[->|[->|[->|[]]]]]]; by vm_compute.
Qed.

(** X4: in the fact namespace of a device, "device.tag.<key>" holds the
    value of the tag <key> exactly when the device defines that tag, and the
    five built-in paths hold the device's own values, which no tag can
    replace. *)
Theorem buildLHSMapping_facts (ctx : ConditionContext) :
  (∀ tagKey : string,
     buildLHSMapping ctx !! ("device.tag." +:+ tagKey)
     = Tags (ctx_DeviceConfig ctx) !! tagKey)
  ∧ buildLHSMapping ctx !! "device.hostname"
    = Some (Str (Hostname (ctx_DeviceConfig ctx)))
  ∧ buildLHSMapping ctx !! "device.ipaddr"
    = Some (Str (IPAddr (ctx_DeviceConfig ctx)))
  ∧ buildLHSMapping ctx !! "device.model_id"
    = Some (Str (ModelID (ctx_DeviceConfig ctx)))
  ∧ buildLHSMapping ctx !! "device.version"
    = Some (Str (condition_Version (ctx_DeviceSchema ctx)))
  ∧ buildLHSMapping ctx !! "device.sw_config"
    = Some (Bool (condition_SwConfig (ctx_DeviceSchema ctx))).
Proof.
  unfold buildLHSMapping. split.
  - intros tagKey. rewrite foldl_tags_lookup by apply range_NoDup_keys.
    rewrite list_to_map_range.
    destruct (Tags (ctx_DeviceConfig ctx) !! tagKey); [done|].
    rewrite !lookup_insert_ne, lookup_empty; [done |..];
      apply not_eq_sym, tag_path_not_builtin, (bool_decide_unpack _);
      by vm_compute.
  - repeat split;
      (rewrite foldl_tags_other
         by (intros kv _; apply tag_path_not_builtin, (bool_decide_unpack _);
             by vm_compute));
      repeat (rewrite lookup_insert_ne by done); by rewrite lookup_insert_eq.
Qed.

(** *** Literals: panics *)

Lemma quoted_short (token : string) :
  quoted token = true → len token ≤ 1 → token = "'" ∨ token = dquote.
Proof.
  destruct token as [|a rest]; [done|]. intros Hq Hlen.
  destruct rest as [|b rest]; [|unfold len in Hlen; simpl in Hlen; lia].
  unfold quoted, dquote in Hq.
  change "'" with (String "'"%char EmptyString) in Hq.
  rewrite !HasPrefix_char in Hq.
  apply orb_true_iff in Hq as [Hq|Hq]; apply andb_true_iff in Hq as [Hq _];
    apply bool_decide_eq_true in Hq as <-; [by left | by right].
Qed.

(** X5: [parseValue] panics exactly on a literal that, once trimmed, is a
    lone single or double quote, and then with a slice-bounds runtime error;
    on every other literal it returns a value. *)
Theorem parseValue_panics (s : string) (p : panic) :
  parseValue s = Panic p
  ↔ p = SliceBoundsOutOfRange
    ∧ (TrimSpace s = "'" ∨ TrimSpace s = dquote).
Proof.
  unfold parseValue. split.
  - destruct (quoted (TrimSpace s)) eqn:Hq.
    + case_bool_decide as Hlen; simpl.
      * by destruct (Unmarshal _).
      * intros [= <-]. split; [done|]. apply quoted_short; [done | lia].
    + simpl. by destruct (Unmarshal _).
  - by intros [-> [-> | ->]].
Qed.

(** *** Comparisons: malformed input *)

Lemma HasPrefix_cons (a c : ascii) (prefix rest : string) :
  HasPrefix (String c rest) (String a prefix)
  = bool_decide (a = c) && HasPrefix rest prefix.
Proof.
  unfold HasPrefix.
  change (String.prefix (String a prefix) (String c rest))
    with (if ascii_dec a c then String.prefix prefix rest else false).
  destruct (ascii_dec a c) as [Heq|Hne].
  - by rewrite (bool_decide_eq_true_2 _ Heq).
  - by rewrite (bool_decide_eq_false_2 _ Hne).
Qed.

Lemma HasPrefix_append (s prefix t : string) :
  HasPrefix s prefix = true → HasPrefix (s +:+ t) prefix = true.
Proof.
  revert s. induction prefix as [|a prefix IH]; intros s.
  - intros _. by destruct (s +:+ t).
  - destruct s as [|c rest]; [done|].
    rewrite append_cons, !HasPrefix_cons.
    intros [Hc Hrest]%andb_true_iff. rewrite Hc. by apply IH.
Qed.

Lemma splitComparison_loop_step (operator : string) (c : ascii)
    (rest : string) (inQuotes : bool) (quoteChar : ascii) (before : string) :
  splitComparison_loop operator (String c rest) inQuotes quoteChar before
  = if is_quote c then
      if negb inQuotes then
        splitComparison_loop operator rest true c
          (before +:+ String c EmptyString)
      else if bool_decide (c = quoteChar) then
        splitComparison_loop operator rest false quoteChar
          (before +:+ String c EmptyString)
      else
        splitComparison_loop operator rest inQuotes quoteChar
          (before +:+ String c EmptyString)
    else if negb inQuotes && HasPrefix (String c rest) operator then
      Some (before, slice_from (len operator) (String c rest))
    else
      splitComparison_loop operator rest inQuotes quoteChar
        (before +:+ String c EmptyString).
Proof. reflexivity. Qed.

Lemma occursIn_cons (sub : string) (c : ascii) (rest : string) :
  occursIn sub (String c rest)
  = HasPrefix (String c rest) sub || occursIn sub rest.
Proof. reflexivity. Qed.

Lemma splitComparison_loop_None (operator expr : string) (inQuotes : bool)
    (quoteChar : ascii) (before : string) :
  occursIn operator expr = false →
  splitComparison_loop operator expr inQuotes quoteChar before = None.
Proof.
  revert inQuotes quoteChar before.
  induction expr as [|c rest IH]; intros inQuotes quoteChar before; [done|].
  rewrite occursIn_cons, splitComparison_loop_step.
  intros [Hhere Hrest]%orb_false_iff. rewrite Hhere, andb_false_r.
  destruct (is_quote c), (negb inQuotes), (bool_decide (c = quoteChar));
    by apply IH.
Qed.

(** X6: a comparison that, once trimmed, contains neither "==" nor "!=" at
    any position makes [evaluateComparison] panic with "Unable to parse
    condition" and the trimmed text, whatever the facts. *)
Theorem evaluateComparison_malformed (expr : string)
    (lhsMapping : gmap string any) :
  occursIn "==" (TrimSpace expr) = false →
  occursIn "!=" (TrimSpace expr) = false →
  evaluateComparison expr lhsMapping
  = Panic (UnableToParseCondition (TrimSpace expr)).
Proof.
  intros Heq Hne. unfold evaluateComparison, splitComparison.
  by rewrite (splitComparison_loop_None _ _ _ _ _ Heq),
    (splitComparison_loop_None _ _ _ _ _ Hne).
Qed.

(** *** Splitting at an operator *)















(** *** The package plan: counting and panics *)

Lemma length_filter_split {A} (p : A → bool) (l : list A) :
  length (filter (λ x, p x = false) l) + length (filter (λ x, p x = true) l)
  = length l.
Proof.
  induction l as [|x l IH]; [done|]. rewrite !filter_cons.
  destruct (p x); simpl; lia.
Qed.

(** X8: in the plan [resolvePackages] returns, no package is named twice in
    the uninstall list, and every distinct token of the matching profiles
    yields exactly one directive. *)
Theorem resolvePackages_census (oncConfig : ONCConfig)
    (ctx : ConditionContext) (install : list Package)
    (uninstall : list string) :
  resolvePackages oncConfig ctx = Ok (install, uninstall) →
  NoDup uninstall
  ∧ length install + length uninstall
    = length (remove_dups (matchingTokens oncConfig ctx)).
Proof.
  intros (tokens & Hnodup & Htokens & -> & ->)%resolvePackages_closed. split.
  - apply NoDup_fmap_2_strong; [|by apply NoDup_filter].
    intros x y [Hx _]%list_elem_of_filter [Hy _]%list_elem_of_filter Heq.
    rewrite (HasPrefix_dash x Hx), (HasPrefix_dash y Hy). by rewrite Heq.
  - rewrite !length_fmap, (length_filter_split (λ token, HasPrefix token "-")).
    apply Permutation_length, NoDup_Permutation;
      [done | apply NoDup_remove_dups|].
    intros token. by rewrite Htokens, elem_of_remove_dups.
Qed.

Lemma collect_tokens_panic (ctx : ConditionContext)
    (profiles : list PackageProfile) (acc : list string) (p : panic) :
  foldM (λ allPackages profile,
           b ← Evaluate (PackageProfile_If profile) ctx;
           Ok (if b : bool then allPackages ++ Packages profile
               else allPackages))
        acc profiles = Panic p
  ↔ ∃ (before : list PackageProfile) (profile : PackageProfile)
      (after : list PackageProfile),
      profiles = before ++ profile :: after
      ∧ Forall (λ earlier,
                  ∃ b, Evaluate (PackageProfile_If earlier) ctx = Ok b)
               before
      ∧ Evaluate (PackageProfile_If profile) ctx = Panic p.
Proof.
  revert acc. induction profiles as [|profile profiles IH]; intros acc.
  - simpl. split; [done|]. intros (before & x & after & Heq & _).
    by destruct before.
  - rewrite foldM_cons.
    destruct (Evaluate (PackageProfile_If profile) ctx) as [b|p'] eqn:Hhd;
      simpl.
    + rewrite IH. split.
      * intros (before & x & after & -> & Hbefore & Hx).
        exists (profile :: before), x, after. split; [done|].
        split; [|done]. constructor; [by exists b | done].
      * intros (before & x & after & Heq & Hbefore & Hx).
        destruct before as [|y before]; simpl in Heq;
          injection Heq as -> ->; [congruence|].
        apply Forall_cons in Hbefore as [_ Hbefore].
        by exists before, x, after.
    + split.
      * intros [= ->]. by exists [], profile, profiles.
      * intros (before & x & after & Heq & Hbefore & Hx).
        destruct before as [|y before]; simpl in Heq;
          injection Heq as -> ->; [congruence|].
        apply Forall_cons in Hbefore as [[b Hb] _]. congruence.
Qed.

(** X9: [resolvePackages] evaluates the conditions of the profiles in
    order, all of them, and panics exactly when one of them panics: with
    the panic of the first profile whose condition does. *)
Theorem resolvePackages_panics (oncConfig : ONCConfig)
    (ctx : ConditionContext) (p : panic) :
  resolvePackages oncConfig ctx = Panic p
  ↔ ∃ (before : list PackageProfile) (profile : PackageProfile)
      (after : list PackageProfile),
      PackageProfiles oncConfig = before ++ profile :: after
      ∧ Forall (λ earlier,
                  ∃ b, Evaluate (PackageProfile_If earlier) ctx = Ok b)
               before
      ∧ Evaluate (PackageProfile_If profile) ctx = Panic p.
Proof.
  rewrite <- (collect_tokens_panic ctx (PackageProfiles oncConfig) []).
  unfold resolvePackages.
  destruct (foldM _ [] (PackageProfiles oncConfig)); simpl;
    split; by intros [= ->].
Qed.

(** *** The package commands: a device that is up to date *)

Lemma filter_empty_iff {A} (P : A → Prop) `{∀ x, Decision (P x)}
    (l : list A) :
  filter P l = [] ↔ ∀ x, x ∈ l → ¬ P x.
Proof.
  split.
  - intros Hnil x Hin HP. by apply (filter_nil_not_elem_of P l x).
  - induction l as [|x l IH]; intros Hl; [done|]. rewrite filter_cons.
    rewrite decide_False by (apply Hl; by left).
    apply IH. intros y Hy. apply Hl. by right.
Qed.

Lemma commands_empty_iff (remove install : list string) :
  removeCommand remove ++ installCommand install = []
  ↔ remove = [] ∧ install = [].
Proof.
  split; [|by intros [-> ->]]. by destruct remove, install.
Qed.

(** X10: with a snapshot of the installed packages, [GetPackageCommands]
    emits no command at all exactly when the device is up to date: every
    package to install is in the snapshot and no package to uninstall is. *)
Theorem GetPackageCommands_converged (packagesToInstall : list Package)
    (packagesToUninstall : list string)
    (installedPackages : list InstalledPackage) :
  GetPackageCommands packagesToInstall packagesToUninstall
    (Some installedPackages) = []
  ↔ (∀ pkg, pkg ∈ packagesToInstall →
       Package_Name pkg ∈ InstalledPackage_Name <$> installedPackages)
    ∧ (∀ name, name ∈ packagesToUninstall →
         name ∉ InstalledPackage_Name <$> installedPackages).
Proof.
  rewrite GetPackageCommands_closed, commands_empty_iff.
  unfold remainingUninstall, remainingInstall.
  assert (∀ l : list Package, Package_Name <$> l = [] ↔ l = []) as Hnil
    by (intros l; split; [apply fmap_nil_inv | by intros ->]).
  rewrite Hnil, !filter_empty_iff. split.
  - intros [Hun Hin]. split; [|done].
    intros pkg Hpkg. by apply dec_stable, Hin.
  - intros [Hin Hun]. split; [done|].
    intros pkg Hpkg Hnot. by apply Hnot, Hin.
Qed.

(** *** The reset commands of a reset scope *)

Lemma resetScope_lookup (deviceSchema : DeviceSchema)
    (configsToNotReset : list string) (configKey : string) :
  getConfigSectionsToReset deviceSchema configsToNotReset !! configKey
  = match ConfigSections deviceSchema !! configKey with
    | Some sectionKeys =>
        if bool_decide (configKey +:+ ".*" ∈ configsToNotReset) then None
        else
          match filter (λ sectionKey,
                          configKey +:+ "." +:+ sectionKey ∉ configsToNotReset)
                       sectionKeys with
          | [] => None
          | sectionsToReset => Some sectionsToReset
          end
    | None => None
    end.
Proof.
  unfold getConfigSectionsToReset.
  pose (f := λ (key : string) (sectionKeys : list string),
    if bool_decide (key +:+ ".*" ∈ configsToNotReset) then None
    else match filter (λ sectionKey,
            key +:+ "." +:+ sectionKey ∉ configsToNotReset) sectionKeys with
         | [] => None
         | sectionsToReset => Some sectionsToReset
         end).
  rewrite (foldl_ext _ (λ result kv,
    match f kv.1 kv.2 with
    | Some w => <[kv.1 := w]> result
    | None => result
    end)).
  - rewrite (foldl_insert_lookup f) by apply range_NoDup_keys.
    rewrite list_to_map_range, lookup_empty. unfold f.
    destruct (ConfigSections deviceSchema !! configKey); [|done].
    by repeat case_match.
  - intros result [key sectionKeys]. unfold f. simpl.
    rewrite index_bool_set. case_bool_decide; [done|].
    rewrite foldl_append_if, app_nil_l, if_nonempty.
    rewrite (list_filter_iff _
      (λ sectionKey, key +:+ "." +:+ sectionKey ∉ configsToNotReset)).
    + by case_match.
    + intros sectionKey. rewrite index_bool_set, negb_true_iff.
      by rewrite bool_decide_eq_false.
Qed.

Lemma resetScope_elem_of (deviceSchema : DeviceSchema)
    (configsToNotReset : list string) (configKey sectionKey : string) :
  (∃ sectionKeys,
     getConfigSectionsToReset deviceSchema configsToNotReset !! configKey
     = Some sectionKeys
     ∧ sectionKey ∈ sectionKeys)
  ↔ (∃ sectionKeys,
       ConfigSections deviceSchema !! configKey = Some sectionKeys
       ∧ sectionKey ∈ sectionKeys)
    ∧ (configKey +:+ ".*" ∉ configsToNotReset)
    ∧ (configKey +:+ "." +:+ sectionKey ∉ configsToNotReset).
Proof.
  rewrite resetScope_lookup.
  destruct (ConfigSections deviceSchema !! configKey) as [sectionKeys|];
    [|split; [by intros (? & ? & _) | by intros ((? & ? & _) & _)]].
  case_bool_decide as Hall.
  { split; [by intros (? & ? & _) | by intros (_ & ? & _)]. }
  destruct (filter _ sectionKeys) as [|s0 rest] eqn:Hfilter.
  - split; [by intros (? & ? & _)|].
    intros ((l & [= <-] & Hin) & _ & Hnot).
    assert (sectionKey ∈ filter (λ sectionKey,
              configKey +:+ "." +:+ sectionKey ∉ configsToNotReset)
              sectionKeys) as Hmem by by apply list_elem_of_filter.
    rewrite Hfilter in Hmem. by apply elem_of_nil in Hmem.
  - rewrite <- Hfilter. split.
    + intros (l & [= <-] & [Hnot Hin]%list_elem_of_filter).
      split; [by exists sectionKeys | done].
    + intros ((l & [= <-] & Hin) & _ & Hnot). eexists. split; [done|].
      by apply list_elem_of_filter.
Qed.

(** X11: the reset commands of the reset scope of a schema are the delete
    loops of the section types of the schema that are exempted neither by
    "<group>.*" nor by "<group>.<section-type>": no exempted section is
    ever deleted, and no other section of the schema is left out. *)
Theorem reset_commands_of_schema (deviceSchema : DeviceSchema)
    (configsToNotReset : list string) (command : string) :
  command ∈ GetResetCommands
              (getConfigSectionsToReset deviceSchema configsToNotReset)
  ↔ ∃ (configKey sectionKey : string) (sectionKeys : list string),
      ConfigSections deviceSchema !! configKey = Some sectionKeys
      ∧ sectionKey ∈ sectionKeys
      ∧ (configKey +:+ ".*" ∉ configsToNotReset)
      ∧ (configKey +:+ "." +:+ sectionKey ∉ configsToNotReset)
      ∧ command = "while uci -q delete " +:+ configKey +:+ ".@"
                    +:+ sectionKey +:+ "[0]; do :; done".
Proof.
  unfold GetResetCommands. rewrite list_elem_of_bind. split.
  - intros ([configKey scope] & Hcmd & Hin%elem_of_range).
    apply list_elem_of_fmap in Hcmd as (sectionKey & -> & Hsec).
    destruct (proj1 (resetScope_elem_of deviceSchema configsToNotReset
                       configKey sectionKey))
      as ((sectionKeys & Hschema & Hmem) & Hall & Hone); [by exists scope|].
    by exists configKey, sectionKey, sectionKeys.
  - intros (configKey & sectionKey & sectionKeys & Hschema & Hmem & Hall
            & Hone & ->).
    destruct (proj2 (resetScope_elem_of deviceSchema configsToNotReset
                       configKey sectionKey))
      as (scope & Hscope & Hin); [by split; [exists sectionKeys|]|].
    exists (configKey, scope). split; [|by apply elem_of_range].
    apply list_elem_of_fmap. by exists sectionKey.
Qed.

(** *** The configuration commands *)

Lemma HasPrefix_app (prefix s : string) : HasPrefix (prefix +:+ s) prefix = true.
Proof.
  induction prefix as [|a prefix IH]; [by destruct s|].
  rewrite append_cons, HasPrefix_cons, IH. by rewrite bool_decide_eq_true_2.
Qed.

Lemma generatePropertyCommands_prefix (identifier key : string) (value : any) :
  Forall (λ command,
            HasPrefix command "uci set " = true
            ∨ HasPrefix command "uci add_list " = true)
         (generatePropertyCommands identifier key value).
Proof.
  unfold generatePropertyCommands.
  destruct value; try (constructor; [left; apply HasPrefix_app | constructor]).
  apply Forall_fmap, Forall_true. intros item. right. apply HasPrefix_app.
Qed.

Lemma GenerateCommands_prefix (openWrtConfig : gmap string any) :
  Forall (λ command,
            HasPrefix command "uci set " = true
            ∨ HasPrefix command "uci add_list " = true)
         (GenerateCommands openWrtConfig).
Proof.
  unfold GenerateCommands. apply Forall_forall. intros command.
  rewrite list_elem_of_bind. intros ([configKey configValue] & Hcmd & _).
  destruct configValue as [| | | | | |configMap];
    try (by apply elem_of_nil in Hcmd).
  apply list_elem_of_bind in Hcmd as ([sectionKey sectionValue] & Hcmd & _).
  destruct sectionValue as [| | | |sections| |];
    try (by apply elem_of_nil in Hcmd).
  apply list_elem_of_bind in Hcmd as (section & Hcmd & _).
  unfold sectionCommands in Hcmd.
  destruct section as [| | | | | |sectionMap];
    try (by apply elem_of_nil in Hcmd).
  destruct (sectionMap !! ".name") as [[| | |sectionName| | |]|];
    try (by apply elem_of_nil in Hcmd).
  apply elem_of_cons in Hcmd as [->|Hcmd]; [left; apply HasPrefix_app|].
  apply list_elem_of_bind in Hcmd as ([key value] & Hcmd & _).
  simpl in Hcmd. case_bool_decide; [by apply elem_of_nil in Hcmd|].
  pose proof (generatePropertyCommands_prefix
                (configKey +:+ "." +:+ sectionName) key value) as Hall.
  rewrite Forall_forall in Hall. by apply Hall.
Qed.

(** X12: every command [GenerateCommands] produces is a "uci set" or a
    "uci add_list" command: generating the commands of a resolved tree never
    produces a delete, a commit or a package command. *)
Theorem GenerateCommands_only_sets (openWrtConfig : gmap string any) :
  Forall (λ command,
            HasPrefix command "uci set " = true
            ∨ HasPrefix command "uci add_list " = true)
         (GenerateCommands openWrtConfig).
Proof. apply GenerateCommands_prefix. Qed.

(** *** Extra groups of a document *)

(** X13: when [UnmarshalJSON] succeeds, [Extra] holds exactly the keys of
    the document's "config" that are not one of the six known groups, each
    with the value it has in the document, for every order in which the
    keys are visited; what [Extra] held before is discarded, and the six
    groups are those of the typed decode. *)
Theorem UnmarshalJSON_Extra (c c' : ConfigConfig) (raw : gmap string any) :
  UnmarshalJSON c raw = Some c' →
  (∀ key : string,
     Extra c' !! key
     = if decide (key ∈ knownFields) then None else raw !! key)
  ∧ ∃ aux : ConfigConfig,
      Unmarshal_Alias c raw = Some aux
      ∧ marshalConfig c' = marshalConfig aux.
Proof.
  unfold UnmarshalJSON.
  destruct (Unmarshal_Alias c raw) as [aux|]; [|done]. intros [= <-].
  split; [|by exists aux]. intros key. cbn [Extra].
  pose (f := λ (k : string) (v : any),
    if bool_decide (k ∈ knownFields) then None else Some v).
  rewrite (foldl_ext _ (λ Extra kv,
    match f kv.1 kv.2 with
    | Some w => <[kv.1 := w]> Extra
    | None => Extra
    end)).
  2:{ intros Extra [k v]. unfold f. cbn [fst snd]. by case_bool_decide. }
  rewrite (foldl_insert_lookup f) by apply range_NoDup_keys.
  rewrite list_to_map_range, lookup_empty. unfold f.
  destruct (raw !! key) as [v|]; [|by case_decide].
  case_decide; [by rewrite bool_decide_eq_true_2 |
                by rewrite bool_decide_eq_false_2].
Qed.

(** *** Where the resolved tree comes from *)

Lemma resolveSections_Ok (ctx : ConditionContext) (sections : list any)
    (acc resolvedSectionList : list any) :
  foldM (resolveSection ctx) acc sections = Ok resolvedSectionList →
  resolvedSectionList = acc ++ omap (survivingSection ctx) sections.
Proof.
  revert acc. induction sections as [|section sections IH]; intros acc.
  - simpl. intros [= <-]. by rewrite app_nil_r.
  - rewrite foldM_cons.
    change (omap (survivingSection ctx) (section :: sections))
      with (match survivingSection ctx section with
            | Some y => y :: omap (survivingSection ctx) sections
            | None => omap (survivingSection ctx) sections
            end).
    unfold resolveSection, survivingSection at 1.
    destruct section as [| | | | | |sectionMap]; cbv beta iota;
      try (simpl; by intros ->%IH).
    destruct (applyObject sectionMap ctx) as [resolvedSection|]; simpl;
      [|done].
    case_bool_decide; simpl; intros ->%IH; [|done].
    by rewrite <- app_assoc.
Qed.

(** A loop that stores at most one value under the key it visits: every
    entry of the result was there before or was stored for a visited key. *)
Lemma foldM_provenance {A B} (Q : string → A → B → Prop)
    (f : gmap string B → string * A → outcome (gmap string B))
    (l : list (string * A)) (r r' : gmap string B) (k : string) (v : B) :
  (∀ r0 r1 kv, f r0 kv = Ok r1 →
     r1 = r0 ∨ ∃ w, r1 = <[kv.1 := w]> r0 ∧ Q kv.1 kv.2 w) →
  foldM f r l = Ok r' →
  r' !! k = Some v →
  r !! k = Some v ∨ ∃ a, (k, a) ∈ l ∧ Q k a v.
Proof.
  intros Hstep. revert r. induction l as [|[k0 a0] l IH]; intros r.
  - simpl. intros [= <-] Hk. by left.
  - rewrite foldM_cons. destruct (f r (k0, a0)) as [r1|] eqn:Hf; [|done].
    simpl. intros Hrest Hk.
    destruct (IH _ Hrest Hk) as [Hr1|(a & Hin & HQ)].
    + destruct (Hstep _ _ _ Hf) as [->|(w & -> & HQ)]; [by left|].
      simpl in *. destruct (decide (k0 = k)) as [->|Hne].
      * rewrite lookup_insert_eq in Hr1. injection Hr1 as ->.
        right. exists a0. split; [by left | done].
      * rewrite lookup_insert_ne in Hr1 by done. by left.
    + right. exists a. split; [by right | done].
Qed.

Lemma resolveSectionKey_Ok (ctx : ConditionContext)
    (resolvedSections resolvedSections' : gmap string any)
    (kv : string * any) :
  resolveSectionKey ctx resolvedSections kv = Ok resolvedSections' →
  resolvedSections' = resolvedSections
  ∨ ∃ w, resolvedSections' = <[kv.1 := w]> resolvedSections
         ∧ HasPrefix kv.1 "." = false
         ∧ ∃ sections,
             kv.2 = Arr sections
             ∧ w = Arr (omap (survivingSection ctx) sections)
             ∧ omap (survivingSection ctx) sections ≠ [].
Proof.
  destruct kv as [sectionKey sectionValue]. unfold resolveSectionKey.
  destruct (HasPrefix sectionKey ".") eqn:Hdot; [by intros [= <-]; left|].
  destruct sectionValue as [| | | |sections| |]; try (by intros [= <-]; left).
  destruct (foldM (resolveSection ctx) [] sections)
    as [resolvedSectionList|] eqn:Hlist; [|done].
  apply resolveSections_Ok in Hlist. rewrite app_nil_l in Hlist. subst. simpl.
  case_bool_decide as Hlen; intros [= <-]; [right | by left].
  eexists. split; [done|]. split; [done|]. exists sections.
  split; [done|]. split; [done|]. intros Hnil. rewrite Hnil in Hlen.
  simpl in Hlen. lia.
Qed.

Lemma resolveGroup_provenance (ctx : ConditionContext)
    (resolved resolved' : gmap string any) (kv : string * any) :
  resolveGroup ctx resolved kv = Ok resolved' →
  resolved' = resolved
  ∨ ∃ w, resolved' = <[kv.1 := w]> resolved
         ∧ ∃ configObj appliedConfig resolvedSections,
             kv.2 = Obj configObj
             ∧ applyObject configObj ctx = Ok appliedConfig
             ∧ foldM (resolveSectionKey ctx) ∅ (range o appliedConfig)
               = Ok resolvedSections
             ∧ 0 < size resolvedSections
             ∧ w = Obj resolvedSections.
Proof.
  destruct kv as [configKey configValue]. unfold resolveGroup.
  case_bool_decide; [by intros [= <-]; left|].
  destruct configValue as [| | | | | |configObj]; try (by intros [= <-]; left).
  destruct (applyObject configObj ctx) as [appliedConfig|] eqn:Happly;
    [simpl|done].
  case_bool_decide; [by intros [= <-]; left|].
  destruct (foldM (resolveSectionKey ctx) ∅ (range o appliedConfig))
    as [resolvedSections|] eqn:Hsections; [simpl|done].
  case_bool_decide; intros [= <-]; [right | by left].
  eexists. split; [done|]. by exists configObj, appliedConfig, resolvedSections.
Qed.

(** The provenance of a group of the resolved tree. *)
Lemma resolveConfig_group (oncConfig : ONCConfig) (ctx : ConditionContext)
    (resolved : gmap string any) (configKey : string) (configValue : any) :
  resolveConfig oncConfig ctx = Ok resolved →
  resolved !! configKey = Some configValue →
  ∃ configObj appliedConfig resolvedSections,
    marshalConfig (Config oncConfig) !! configKey = Some (Obj configObj)
    ∧ applyObject configObj ctx = Ok appliedConfig
    ∧ configValue = Obj resolvedSections
    ∧ 0 < size resolvedSections
    ∧ ∀ sectionKey sectionValue,
        resolvedSections !! sectionKey = Some sectionValue →
        HasPrefix sectionKey "." = false
        ∧ ∃ sections,
            appliedConfig !! sectionKey = Some (Arr sections)
            ∧ sectionValue = Arr (omap (survivingSection ctx) sections)
            ∧ omap (survivingSection ctx) sections ≠ [].
Proof.
  intros Hresolve Hgroup. unfold resolveConfig in Hresolve.
  destruct (foldM_provenance
              (λ (_ : string) (value w : any),
                 ∃ configObj appliedConfig resolvedSections,
                   value = Obj configObj
                   ∧ applyObject configObj ctx = Ok appliedConfig
                   ∧ foldM (resolveSectionKey ctx) ∅ (range o appliedConfig)
                     = Ok resolvedSections
                   ∧ 0 < size resolvedSections
                   ∧ w = Obj resolvedSections)
              _ _ _ _ _ _
              (resolveGroup_provenance ctx) Hresolve Hgroup)
    as [Hempty|(a & Hin & configObj & appliedConfig & resolvedSections
                & Ha & Happly & Hsections & Hsize & ->)].
  { by rewrite lookup_empty in Hempty. }
  simpl in Ha. subst a. apply elem_of_range in Hin.
  exists configObj, appliedConfig, resolvedSections.
  split; [exact Hin|]. split; [exact Happly|]. split; [reflexivity|].
  split; [exact Hsize|].
  intros sectionKey sectionValue Hsection.
  destruct (foldM_provenance
              (λ (key : string) (value w : any),
                 HasPrefix key "." = false
                 ∧ ∃ sections,
                     value = Arr sections
                     ∧ w = Arr (omap (survivingSection ctx) sections)
                     ∧ omap (survivingSection ctx) sections ≠ [])
              _ _ _ _ _ _
              (resolveSectionKey_Ok ctx) Hsections Hsection)
    as [Hempty|(a & Hina & Hdot & sections & Ha & -> & Hne)].
  { by rewrite lookup_empty in Hempty. }
  simpl in Ha. subst a. apply elem_of_range in Hina.
  split; [exact Hdot|]. exists sections.
  split; [exact Hina|]. split; [reflexivity|exact Hne].
Qed.

(** X14: every group of the tree [resolveConfig] returns comes from the
    group of the same name in the document, resolved by [applyObject]; each
    of its section types comes from a list-valued field of that resolved
    group whose name does not start with ".", and holds exactly the
    sections of that list that survive, in their order, at least one. *)
Theorem resolveConfig_provenance (oncConfig : ONCConfig)
    (ctx : ConditionContext) (resolved : gmap string any)
    (configKey : string) (configValue : any) :
  resolveConfig oncConfig ctx = Ok resolved →
  resolved !! configKey = Some configValue →
  ∃ configObj appliedConfig resolvedSections,
    marshalConfig (Config oncConfig) !! configKey = Some (Obj configObj)
    ∧ applyObject configObj ctx = Ok appliedConfig
    ∧ configValue = Obj resolvedSections
    ∧ 0 < size resolvedSections
    ∧ ∀ sectionKey sectionValue,
        resolvedSections !! sectionKey = Some sectionValue →
        HasPrefix sectionKey "." = false
        ∧ ∃ sections,
            appliedConfig !! sectionKey = Some (Arr sections)
            ∧ sectionValue = Arr (omap (survivingSection ctx) sections)
            ∧ omap (survivingSection ctx) sections ≠ [].
Proof. apply resolveConfig_group. Qed.

Lemma range_empty {A} : range o (∅ : gmap string A) = [].
Proof.
  apply Permutation_nil_r. rewrite (range_perm o A ∅).
  by rewrite map_to_list_empty.
Qed.

Lemma foldM_app {A S} (f : S → A → outcome S) (s : S) (l1 l2 : list A) :
  foldM f s (l1 ++ l2) = foldM f s l1 ≫= λ s', foldM f s' l2.
Proof.
  revert s. induction l1 as [|x l1 IH]; intros s; [done|].
  cbn [app]. rewrite !foldM_cons. destruct (f s x) as [s'|p]; [|done].
  apply IH.
Qed.

(** X15: a node whose own [.if] evaluates to false disappears: [applyObject]
    returns the empty object for it, whatever its fields and overrides; a
    list of sections resolves to the same entry of its group with the node
    in it as without; and as a group of the document the node has no group
    in the tree [resolveConfig] returns. *)
Theorem false_node_disappears (obj : gmap string any)
    (ctx : ConditionContext) :
  ifHolds ctx obj = Ok false →
  applyObject obj ctx = Ok ∅
  ∧ (∀ (resolvedSections : gmap string any) (sectionKey : string)
       (before after : list any),
       resolveSectionKey ctx resolvedSections
         (sectionKey, Arr (before ++ Obj obj :: after))
       = resolveSectionKey ctx resolvedSections
           (sectionKey, Arr (before ++ after)))
  ∧ ∀ (oncConfig : ONCConfig) (configKey : string)
      (resolved : gmap string any),
      marshalConfig (Config oncConfig) !! configKey = Some (Obj obj) →
      resolveConfig oncConfig ctx = Ok resolved →
      resolved !! configKey = None.
Proof.
  intros Hif.
  assert (applyObject obj ctx = Ok ∅) as Happly
    by (unfold applyObject; by rewrite Evaluate_conditionOf, Hif).
  split; [exact Happly|]. split.
  { intros resolvedSections sectionKey before after.
    unfold resolveSectionKey. destruct (HasPrefix sectionKey "."); [done|].
    rewrite !foldM_app.
    destruct (foldM (resolveSection ctx) [] before) as [resolvedSectionList|];
      [|done].
    change (Ok resolvedSectionList ≫= ?f) with (f resolvedSectionList).
    cbv beta. rewrite foldM_cons.
    assert (resolveSection ctx resolvedSectionList (Obj obj)
            = Ok resolvedSectionList) as ->
      by (unfold resolveSection; by rewrite Happly).
    done. }
  intros oncConfig configKey resolved Hgroup Hresolve.
  apply eq_None_not_Some. intros [configValue Hsome].
  destruct (resolveConfig_group _ _ _ _ _ Hresolve Hsome)
    as (configObj & appliedConfig & resolvedSections & Hobj & Happlied & _
        & Hsize & Hsections).
  rewrite Hgroup in Hobj. injection Hobj as <-.
  rewrite Happly in Happlied. injection Happlied as <-.
  destruct (map_choose_or_empty resolvedSections)
    as [(sectionKey & sectionValue & Hsec)| ->].
  - destruct (Hsections _ _ Hsec) as (_ & sections & Hin & _).
    by rewrite lookup_empty in Hin.
  - rewrite map_size_empty in Hsize. lia.
Qed.

(** *** The reset scope of a device *)

Lemma collect_exemptions (ctx : ConditionContext)
    (items : list ConfigsToNotReset) (acc configs : list string) :
  foldM (λ configs item,
           b ← Evaluate (ConfigsToNotReset_If item) ctx;
           Ok (if b : bool then configs ++ Configs item else configs))
        acc items = Ok configs →
  configs
  = acc ++ (filter (λ item,
                      Evaluate (ConfigsToNotReset_If item) ctx = Ok true)
                   items ≫= Configs).
Proof.
  revert acc. induction items as [|item items IH]; intros acc.
  - simpl. intros [= <-]. by rewrite app_nil_r.
  - rewrite foldM_cons, filter_cons.
    destruct (Evaluate (ConfigsToNotReset_If item) ctx) as [[|]|]; simpl;
      [| |done]; intros Hrest; apply IH in Hrest as ->.
    + symmetry. apply app_assoc.
    + done.
Qed.

(** X16: in the state [GetOpenWrtState] returns for a device, a section
    type is in the reset scope of a group exactly when the schema of the
    device has it and neither "<group>.*" nor "<group>.<section-type>" is
    exempted by an entry of "configs_to_not_reset" whose condition holds for
    that device: an exemption whose condition is false protects nothing. *)
Theorem GetOpenWrtState_reset_scope (oncConfig : ONCConfig)
    (deviceConfig : DeviceConfig) (deviceSchema : DeviceSchema)
    (state : OpenWrtState) (configKey sectionKey : string) :
  GetOpenWrtState oncConfig deviceConfig deviceSchema = Ok state →
  (∃ sectionKeys,
     ConfigSectionsToReset state !! configKey = Some sectionKeys
     ∧ sectionKey ∈ sectionKeys)
  ↔ (∃ sectionKeys,
       ConfigSections deviceSchema !! configKey = Some sectionKeys
       ∧ sectionKey ∈ sectionKeys)
    ∧ (configKey +:+ ".*"
         ∉ matchingExemptions oncConfig (contextOf deviceConfig deviceSchema))
    ∧ (configKey +:+ "." +:+ sectionKey
         ∉ matchingExemptions oncConfig (contextOf deviceConfig deviceSchema)).
Proof.
  unfold GetOpenWrtState.
  destruct (resolveConfig oncConfig _) as [openWrtConfig|];
    [|intros H; discriminate H].
  destruct (resolvePackages oncConfig _) as [packages|];
    [|intros H; discriminate H].
  destruct (resolveConfigsToNotReset oncConfig _) as [configs|] eqn:Hconfigs;
    [|intros H; discriminate H].
  intros H. injection H as <-. cbn [ConfigSectionsToReset].
  unfold resolveConfigsToNotReset in Hconfigs.
  apply (collect_exemptions _ _ [] configs) in Hconfigs.
  rewrite app_nil_l in Hconfigs. subst configs. apply resetScope_elem_of.
Qed.

(** *** The listing of installed packages *)

Lemma occursIn_append_l (sub s t : string) :
  occursIn sub (s +:+ t) = false → occursIn sub s = false.
Proof.
  induction s as [|c rest IH].
  - destruct sub as [|a sub]; [by destruct t|done].
  - rewrite append_cons, !occursIn_cons.
    intros [Hprefix Hrest]%orb_false_iff. apply orb_false_iff. split.
    + destruct (HasPrefix (String c rest) sub) eqn:H; [|done].
      apply (HasPrefix_append _ _ t) in H. rewrite append_cons in H.
      by rewrite H in Hprefix.
    + by apply IH.
Qed.

Lemma occursIn_append_r (sub s t : string) :
  occursIn sub (s +:+ t) = false → occursIn sub t = false.
Proof.
  induction s as [|c rest IH]; [done|].
  rewrite append_cons, occursIn_cons.
  intros [_ Hrest]%orb_false_iff. by apply IH.
Qed.

(** A separator that does not occur is never found. *)
Lemma split_go_absent (sep s current : string) :
  occursIn sep s = false → split_go sep s 0 current = [current +:+ s].
Proof.
  revert current. induction s as [|c rest IH]; intros current.
  - intros _. by rewrite append_empty_r.
  - rewrite occursIn_cons, split_go_step.
    intros [-> Hrest]%orb_false_iff. rewrite (IH _ Hrest).
    by rewrite append_assoc.
Qed.

Lemma Split_absent (s sep : string) :
  occursIn sep s = false → Split s sep = [s].
Proof. apply split_go_absent. Qed.

(** [sub] occurs in no line of a string in which it does not occur. *)
Lemma lines_without (sub s current : string) :
  occursIn sub (current +:+ s) = false →
  Forall (λ line, occursIn sub line = false) (split_go newline s 0 current).
Proof.
  revert current. induction s as [|c rest IH]; intros current Hsub.
  - rewrite append_empty_r in Hsub. by constructor.
  - rewrite split_go_step.
    destruct (HasPrefix (String c rest) newline) eqn:Hsep.
    + constructor; [by apply occursIn_append_l in Hsub|].
      apply (IH EmptyString).
      apply occursIn_append_r in Hsub. rewrite occursIn_cons in Hsub.
      by apply orb_false_iff in Hsub as [_ Hsub].
    + apply IH. by rewrite append_assoc.
Qed.

Lemma parseInstalledPackages_skips (lines : list string)
    (packages : option (list InstalledPackage)) :
  Forall (λ line, occursIn " - " line = false) lines →
  foldl (λ packages line,
           match Split line " - " with
           | [name; version] =>
               Some (default [] packages
                     ++ [{| InstalledPackage_Name := name;
                            InstalledPackage_Version := version |}])
           | _ => packages
           end)
        packages lines = packages.
Proof.
  induction 1 as [|line lines Hline _ IH]; [done|].
  cbn [foldl]. by rewrite (Split_absent _ _ Hline).
Qed.

Lemma parseInstalledPackages_None (output : string) :
  occursIn " - " output = false → parseInstalledPackages output = None.
Proof.
  intros Houtput. apply parseInstalledPackages_skips.
  by apply lines_without.
Qed.

Lemma containsByte_append (b : ascii) (s t : string) :
  containsByte b (s +:+ t) = containsByte b s || containsByte b t.
Proof.
  induction s as [|c rest IH]; [done|].
  rewrite append_cons. simpl. by rewrite IH, orb_assoc.
Qed.

(** Bytes other than the first byte of the separator are copied. *)
Lemma split_go_copy (b : ascii) (sep s t current : string) :
  containsByte b s = false →
  split_go (String b sep) (s +:+ t) 0 current
  = split_go (String b sep) t 0 (current +:+ s).
Proof.
  revert current. induction s as [|c rest IH]; intros current.
  - intros _. by rewrite append_empty_r.
  - cbn [containsByte]. intros [Hc Hrest]%orb_false_iff.
    rewrite append_cons, split_go_step, HasPrefix_cons.
    apply bool_decide_eq_false in Hc.
    rewrite bool_decide_eq_false_2 by congruence.
    cbn [andb]. rewrite (IH _ Hrest). by rewrite append_assoc.
Qed.

Lemma split_go_skip (sep s t current : string) :
  split_go sep (s +:+ t) (len s) current = split_go sep t 0 current.
Proof.
  induction s as [|c rest IH]; [by destruct t|].
  rewrite append_cons. exact IH.
Qed.

(** At an occurrence of the separator the current piece ends. *)
Lemma split_go_found (b : ascii) (sep t current : string) :
  split_go (String b sep) (String b sep +:+ t) 0 current
  = current :: split_go (String b sep) t 0 EmptyString.
Proof.
  rewrite append_cons, split_go_step, <- append_cons, HasPrefix_app.
  change (len (String b sep) - 1) with (len sep - 0).
  rewrite Nat.sub_0_r. by rewrite split_go_skip.
Qed.

Lemma getInstalledPackages_loop (InstalledPkgs : list string)
    (output : string) :
  foldl (λ output pkg, output +:+ pkg +:+ " - 1.0.0" +:+ newline)
        output InstalledPkgs
  = output +:+ getInstalledPackages InstalledPkgs.
Proof.
  unfold getInstalledPackages. revert output.
  induction InstalledPkgs as [|pkg pkgs IH]; intros output.
  - by rewrite append_empty_r.
  - simpl. rewrite (IH (output +:+ _)), (IH (EmptyString +:+ _)).
    by rewrite append_assoc.
Qed.

Lemma getInstalledPackages_cons (pkg : string) (pkgs : list string) :
  getInstalledPackages (pkg :: pkgs)
  = (pkg +:+ " - 1.0.0") +:+ newline +:+ getInstalledPackages pkgs.
Proof.
  unfold getInstalledPackages at 1. simpl.
  rewrite getInstalledPackages_loop.
  change (EmptyString +:+ ?s) with s.
  by rewrite <- (append_assoc pkg), append_assoc.
Qed.

Lemma getInstalledPackages_lines (pkgs : list string) :
  Forall (λ pkg, containsByte "010" pkg = false) pkgs →
  Split (getInstalledPackages pkgs) newline
  = ((λ pkg, pkg +:+ " - 1.0.0") <$> pkgs) ++ [EmptyString].
Proof.
  unfold Split. induction 1 as [|pkg pkgs Hpkg _ IH]; [done|].
  rewrite getInstalledPackages_cons.
  unfold newline at 1. rewrite split_go_copy.
  2: { rewrite containsByte_append, Hpkg. by vm_compute. }
  rewrite (split_go_found "010" EmptyString).
  fold newline. by rewrite IH.
Qed.

Lemma Split_listing_line (pkg : string) :
  containsByte " " pkg = false →
  Split (pkg +:+ " - 1.0.0") " - " = [pkg; "1.0.0"].
Proof.
  intros Hpkg. unfold Split.
  rewrite (split_go_copy " " "- " pkg " - 1.0.0" EmptyString Hpkg).
  change " - 1.0.0" with (" - " +:+ "1.0.0").
  by rewrite (split_go_found " " "- " "1.0.0").
Qed.

Lemma parseInstalledPackages_listing (pkgs : list string)
    (packages : list InstalledPackage) :
  Forall (λ pkg, containsByte " " pkg = false) pkgs →
  foldl (λ packages line,
           match Split line " - " with
           | [name; version] =>
               Some (default [] packages
                     ++ [{| InstalledPackage_Name := name;
                            InstalledPackage_Version := version |}])
           | _ => packages
           end)
        (Some packages) ((λ pkg, pkg +:+ " - 1.0.0") <$> pkgs)
  = Some (packages
          ++ ((λ pkg, {| InstalledPackage_Name := pkg;
                         InstalledPackage_Version := "1.0.0" |}) <$> pkgs)).
Proof.
  intros Hpkgs. revert packages.
  induction Hpkgs as [|pkg pkgs Hpkg _ IH]; intros packages.
  - by rewrite app_nil_r.
  - rewrite fmap_cons. simpl foldl. rewrite (Split_listing_line _ Hpkg).
    simpl default. rewrite IH. by rewrite <- app_assoc.
Qed.

(** X18: [parseInstalledPackages] reads back what the mock device prints
    for "opkg list-installed": for package names without space and line
    feed, the packages of the mock in their order, each at version 1.0.0;
    and nil, not an empty list, for a mock with no package. *)
Theorem parseInstalledPackages_getInstalledPackages (pkgs : list string) :
  Forall (λ pkg, containsByte " " pkg = false
                 ∧ containsByte "010" pkg = false) pkgs →
  parseInstalledPackages (getInstalledPackages pkgs)
  = match pkgs with
    | [] => None
    | _ =>
        Some ((λ pkg, {| InstalledPackage_Name := pkg;
                         InstalledPackage_Version := "1.0.0" |}) <$> pkgs)
    end.
Proof.
  intros Hpkgs. unfold parseInstalledPackages.
  rewrite getInstalledPackages_lines
    by (eapply Forall_impl; [exact Hpkgs|]; by intros pkg [_ H]).
  assert (Forall (λ pkg, containsByte " " pkg = false) pkgs) as Hspace
    by (eapply Forall_impl; [exact Hpkgs|]; by intros pkg [H _]).
  destruct Hspace as [|pkg pkgs Hpkg Hrest]; [done|].
  rewrite foldl_app, fmap_cons. simpl foldl at 2.
  rewrite (Split_listing_line _ Hpkg). simpl default.
  rewrite (parseInstalledPackages_listing _ _ Hrest). done.
Qed.

(** *** The script of a device *)

Lemma GetPackageCommands_prefix (packagesToInstall : list Package)
    (packagesToUninstall : list string)
    (installedPackages : option (list InstalledPackage)) :
  Forall (λ command, HasPrefix command "opkg " = true)
         (GetPackageCommands packagesToInstall packagesToUninstall
            installedPackages).
Proof.
  unfold GetPackageCommands.
  destruct (match installedPackages with Some _ => _ | None => _ end)
    as [filteredInstall filteredUninstall].
  apply Forall_app. split; case_bool_decide; try apply Forall_nil_2.
  - constructor; [by apply HasPrefix_append | constructor].
  - constructor; [by vm_compute|].
    constructor; [by apply HasPrefix_append | constructor].
Qed.

Lemma GetResetCommands_prefix
    (configSectionsToReset : gmap string (list string)) :
  Forall (λ command, HasPrefix command "while uci -q delete " = true)
         (GetResetCommands configSectionsToReset).
Proof.
  unfold GetResetCommands. apply Forall_bind, Forall_forall.
  intros [configKey sectionKeys] _. apply Forall_fmap, Forall_forall.
  intros sectionKey _. apply HasPrefix_app.
Qed.

(** X19: a device script is a list of package commands, reset loops and
    "uci set" or "uci add_list" commands, closed by "uci commit" and
    "reload_config"; the two closing commands are issued even when nothing
    else is. *)
Theorem GetDeviceScript_commands (state : OpenWrtState)
    (sshClient : option SSHExecutor) :
  ∃ commands,
    GetDeviceScript state sshClient
    = commands ++ ["uci commit"; "reload_config"]
    ∧ Forall (λ command,
                HasPrefix command "opkg " = true
                ∨ HasPrefix command "while uci -q delete " = true
                ∨ HasPrefix command "uci set " = true
                ∨ HasPrefix command "uci add_list " = true)
             commands.
Proof.
  unfold GetDeviceScript. eexists. split.
  { rewrite <- (app_assoc _ ["uci commit"] ["reload_config"]). reflexivity. }
  apply Forall_app. split; [apply Forall_app; split|].
  - eapply Forall_impl; [apply GetPackageCommands_prefix|].
    intros command H. by left.
  - eapply Forall_impl; [apply GetResetCommands_prefix|].
    intros command H. right. by left.
  - eapply Forall_impl; [apply GenerateCommands_prefix|].
    intros command [H|H]; right; right; [by left | by right].
Qed.

Lemma filter_all {A} (P : A → Prop) `{∀ x, Decision (P x)} (l : list A) :
  Forall P l → filter P l = l.
Proof.
  induction 1 as [|x l Hx _ IH]; [done|].
  by rewrite filter_cons_True, IH.
Qed.

Lemma filter_none {A} (P : A → Prop) `{∀ x, Decision (P x)} (l : list A) :
  Forall (λ x, ¬ P x) l → filter P l = [].
Proof.
  induction 1 as [|x l Hx _ IH]; [done|].
  by rewrite filter_cons_False.
Qed.

Lemma HasPrefix_clash (s prefix1 prefix2 : string) (a b : ascii) :
  a ≠ b →
  HasPrefix s (String a prefix1) = true →
  HasPrefix s (String b prefix2) = false.
Proof.
  intros Hne. destruct s as [|c rest]; [done|]. rewrite !HasPrefix_cons.
  intros [Ha _]%andb_true_iff. apply bool_decide_eq_true in Ha. subst c.
  by rewrite bool_decide_eq_false_2.
Qed.

(** X17: a listing in which " - " does not occur, an empty one in
    particular, is no listing: [parseInstalledPackages] returns nil for it,
    and the package commands of the script [GetDeviceScript] returns are
    those of all the directives of the state, unfiltered: every package to
    uninstall is removed and every package to install is installed,
    although the device reports no installed package. *)
Theorem GetDeviceScript_unusable_listing (state : OpenWrtState)
    (Execute : SSHExecutor) (output : string) :
  Execute "opkg list-installed" = Some output →
  occursIn " - " output = false →
  parseInstalledPackages output = None
  ∧ filter (λ command, HasPrefix command "opkg " = true)
           (GetDeviceScript state (Some Execute))
    = removeCommand (PackagesToUninstall state)
      ++ installCommand (Package_Name <$> PackagesToInstall state).
Proof.
  intros Hexecute Houtput%parseInstalledPackages_None.
  split; [exact Houtput|]. unfold GetDeviceScript.
  rewrite Hexecute, Houtput, !filter_app.
  rewrite (filter_all _ _ (GetPackageCommands_prefix _ _ _)).
  rewrite (filter_none _ (GetResetCommands _)).
  2:{ eapply Forall_impl; [apply GetResetCommands_prefix|].
      intros command H. cbv beta.
      by rewrite (HasPrefix_clash command _ "pkg " "w" "o" ltac:(done) H). }
  rewrite (filter_none _ (GenerateCommands _)).
  2:{ eapply Forall_impl; [apply GenerateCommands_prefix|].
      intros command [H|H]; cbv beta;
        by rewrite (HasPrefix_clash command _ "pkg " "u" "o" ltac:(done) H). }
  rewrite !app_nil_r. by rewrite GetPackageCommands_closed.
Qed.

(** *** Lines *)

Lemma split_go_nonempty (sep s : string) (skip : nat) (current : string) :
  split_go sep s skip current ≠ [].
Proof.
  revert skip current. induction s as [|c rest IH]; intros skip current;
    [done|].
  destruct skip as [|skip]; [|apply IH].
  rewrite split_go_step. destruct (HasPrefix _ sep); [done | apply IH].
Qed.

Lemma splitLines_loop_Split (s current : string) :
  splitLines_loop s current
  = if bool_decide (last (split_go newline s 0 current) = Some EmptyString)
    then removelast (split_go newline s 0 current)
    else split_go newline s 0 current.
Proof.
  revert current. induction s as [|c rest IH]; intros current.
  - destruct current as [|c current]; [done|].
    cbn [split_go splitLines_loop last]. by rewrite bool_decide_eq_false_2.
  - rewrite split_go_step, (HasPrefix_char "010" c rest : HasPrefix _ newline = _).
    cbn [splitLines_loop]. rewrite (IH EmptyString), (IH (current +:+ _)).
    case_bool_decide as Hc.
    + subst c. rewrite (bool_decide_eq_true_2 ("010"%char = "010"%char)) by done.
      change (len newline - 1) with 0.
      pose proof (split_go_nonempty newline rest 0 EmptyString) as Hne.
      set (parts := split_go newline rest 0 EmptyString) in *.
      assert (last (current :: parts) = last parts) as ->
        by by destruct parts.
      assert (removelast (current :: parts) = current :: removelast parts)
        as -> by by destruct parts.
      by case_bool_decide.
    + by rewrite (bool_decide_eq_false_2 ("010"%char = c)) by congruence.
Qed.

Lemma splitLines_loop_lines (s current : string) :
  containsByte "010" current = false →
  Forall (λ line, containsByte "010" line = false)
         (splitLines_loop s current).
Proof.
  revert current. induction s as [|c rest IH]; intros current Hcurrent.
  - destruct current; by repeat constructor.
  - cbn [splitLines_loop]. case_bool_decide as Hc.
    + constructor; [done|]. by apply IH.
    + apply IH. rewrite containsByte_append, Hcurrent. cbn [containsByte orb].
      rewrite bool_decide_eq_false_2 by done. done.
Qed.

(** X20: [splitLines] returns the pieces [strings.Split] cuts at the line
    feeds, without the last one when it is empty: a final line feed, and
    the empty input, give no empty last line; and no line holds a line
    feed. *)
Theorem splitLines_Split (s : string) :
  splitLines s
  = (if bool_decide (last (Split s newline) = Some EmptyString)
     then removelast (Split s newline)
     else Split s newline)
  ∧ Forall (λ line, containsByte "010" line = false) (splitLines s).
Proof.
  split; [apply splitLines_loop_Split | by apply splitLines_loop_lines].
Qed.

(** *** The blocks of the generated commands *)

Lemma HasPrefix_common (s t prefix : string) :
  HasPrefix (s +:+ t) (s +:+ prefix) = HasPrefix t prefix.
Proof.
  induction s as [|c s IH]; [done|].
  rewrite !append_cons, HasPrefix_cons, IH.
  by rewrite bool_decide_eq_true_2.
Qed.

Lemma generatePropertyCommands_key (configKey sectionName key : string)
    (value : any) :
  Forall (setsOption configKey sectionName key)
         (generatePropertyCommands (configKey +:+ "." +:+ sectionName) key
            value).
Proof.
  assert (∀ verb rest : string,
            HasPrefix
              (verb +:+ (configKey +:+ "." +:+ sectionName) +:+ "." +:+ key
                 +:+ "='" +:+ rest)
              (verb +:+ (configKey +:+ "." +:+ sectionName) +:+ "." +:+ key
                 +:+ "='")
            = true) as Hprefix.
  { intros verb rest. rewrite !HasPrefix_common. apply HasPrefix_app. }
  unfold generatePropertyCommands, setsOption. destruct value;
    try (constructor; [left; apply Hprefix | constructor]).
  apply Forall_fmap, Forall_forall. intros item _. right. apply Hprefix.
Qed.

Lemma blocks_bind {A} (P : list string → Prop) (f : A → list string)
    (l : list A) :
  (∀ x, x ∈ l → ∃ blocks, f x = concat blocks ∧ Forall P blocks) →
  ∃ blocks, l ≫= f = concat blocks ∧ Forall P blocks.
Proof.
  induction l as [|x l IH]; intros Hf.
  - by exists [].
  - destruct (Hf x) as (first & Hx & Hfirst); [by left|].
    destruct IH as (blocks & Hl & Hblocks).
    { intros y Hy. apply Hf. by right. }
    exists (first ++ blocks). split; [|by apply Forall_app].
    by rewrite bind_cons, concat_app, Hx, Hl.
Qed.

Lemma sectionCommands_blocks (openWrtConfig configMap : gmap string any)
    (configKey sectionKey : string) (sections : list any) (section : any) :
  openWrtConfig !! configKey = Some (Obj configMap) →
  configMap !! sectionKey = Some (Arr sections) →
  section ∈ sections →
  ∃ blocks,
    sectionCommands configKey sectionKey section = concat blocks
    ∧ Forall (isSectionBlock openWrtConfig) blocks.
Proof.
  intros Hconfig Hsections Hsection. unfold sectionCommands.
  destruct section as [| | | | | |sectionMap]; try by exists [].
  destruct (sectionMap !! ".name") as [[| | |sectionName| | |]|] eqn:Hname;
    try by exists [].
  eexists [_]. split; [by rewrite concat_cons, app_nil_r|].
  constructor; [|constructor].
  exists configKey, sectionKey, sectionName, sectionMap. eexists.
  split; [by exists configMap, sections|]. split; [reflexivity|].
  apply Forall_forall. intros command.
  rewrite list_elem_of_bind. intros ([key value] & Hcommand & Hfield).
  cbn [fst snd] in Hcommand. apply elem_of_range in Hfield.
  case_bool_decide as Hkey; [by apply elem_of_nil in Hcommand|].
  exists key. split; [by exists value|]. split; [done|].
  pose proof (generatePropertyCommands_key configKey sectionName key value)
    as Hall.
  rewrite Forall_forall in Hall. by apply Hall.
Qed.

Lemma GenerateCommands_section (openWrtConfig : gmap string any)
    (configKey sectionKey sectionName : string)
    (sectionMap : gmap string any) (command : string) :
  namedSection openWrtConfig configKey sectionKey sectionName sectionMap →
  command ∈ sectionCommands configKey sectionKey (Obj sectionMap) →
  command ∈ GenerateCommands openWrtConfig.
Proof.
  intros (configMap & sections & Hconfig & Hsections & Hsection & _) Hcommand.
  unfold GenerateCommands. apply list_elem_of_bind.
  exists (configKey, Obj configMap). split; [|by apply elem_of_range].
  apply list_elem_of_bind.
  exists (sectionKey, Arr sections). split; [|by apply elem_of_range].
  apply list_elem_of_bind. by exists (Obj sectionMap).
Qed.

(** X21: the commands [GenerateCommands] produces are the blocks of the
    named sections of the tree, one after the other: each block starts with
    the command that creates its section, "uci set
    <group>.<name>=<section-type>", and holds after it only commands that
    set options of that same section.  Every named section of the tree is
    created, and every field of it other than [.name] that is not an empty
    list is set.  So, for every iteration order of the maps, no option is
    set before its section is created. *)
Theorem GenerateCommands_blocks (openWrtConfig : gmap string any) :
  (∃ blocks,
     GenerateCommands openWrtConfig = concat blocks
     ∧ Forall (isSectionBlock openWrtConfig) blocks)
  ∧ ∀ (configKey sectionKey sectionName : string)
      (sectionMap : gmap string any),
      namedSection openWrtConfig configKey sectionKey sectionName sectionMap →
      createsSection configKey sectionKey sectionName
        ∈ GenerateCommands openWrtConfig
      ∧ ∀ (key : string) (value : any),
          sectionMap !! key = Some value → key ≠ ".name" → value ≠ Arr [] →
          ∃ command,
            command ∈ GenerateCommands openWrtConfig
            ∧ setsOption configKey sectionName key command.
Proof.
  split.
  - unfold GenerateCommands. apply blocks_bind.
    intros [configKey configValue] Hconfig%elem_of_range.
    destruct configValue as [| | | | | |configMap]; try by exists [].
    apply blocks_bind. intros [sectionKey sectionValue] Hsections%elem_of_range.
    destruct sectionValue as [| | | |sections| |]; try by exists [].
    apply blocks_bind. intros section Hsection.
    by apply (sectionCommands_blocks _ configMap _ _ sections).
  - intros configKey sectionKey sectionName sectionMap Hnamed.
    pose proof Hnamed as (_ & _ & _ & _ & _ & Hname).
    assert (∀ command,
              command ∈ sectionCommands configKey sectionKey (Obj sectionMap)
              → command ∈ GenerateCommands openWrtConfig) as Hin
      by (intros command; by apply GenerateCommands_section with sectionName).
    unfold sectionCommands in Hin. rewrite Hname in Hin. cbv zeta in Hin.
    split; [apply Hin; by left|].
    intros key value Hfield Hkey Hvalue.
    pose proof (generatePropertyCommands_key configKey sectionName key value)
      as Hall.
    rewrite Forall_forall in Hall.
    assert (∃ command,
              command ∈ generatePropertyCommands
                          (configKey +:+ "." +:+ sectionName) key value)
      as [command Hcommand].
    { unfold generatePropertyCommands.
      destruct value as [| | | |[|item items]| |];
        try (eexists; by left). done. }
    exists command. split; [|by apply Hall].
    apply Hin. right. apply list_elem_of_bind. exists (key, value).
    split; [|by apply elem_of_range]. cbn [fst snd].
    by rewrite bool_decide_eq_false_2.
Qed.

(** *** A panic ends the run *)

Lemma GetOpenWrtState_profile_panic (oncConfig : ONCConfig)
    (deviceConfig : DeviceConfig) (deviceSchema : DeviceSchema)
    (resolved : gmap string any) (profile : PackageProfile)
    (profiles : list PackageProfile) (p : panic) :
  resolveConfig oncConfig (contextOf deviceConfig deviceSchema) = Ok resolved →
  PackageProfiles oncConfig = profile :: profiles →
  Evaluate (PackageProfile_If profile) (contextOf deviceConfig deviceSchema)
  = Panic p →
  GetOpenWrtState oncConfig deviceConfig deviceSchema = Panic p.
Proof.
  intros Hconfig Hprofiles Hif. unfold GetOpenWrtState.
  cbv zeta. rewrite Hconfig.
  change (Ok resolved ≫= ?f) with (f resolved). cbv beta.
  unfold resolvePackages. rewrite Hprofiles, foldM_cons, Hif. reflexivity.
Qed.

Lemma printUciCommandsCmd_panic (oncConfig : ONCConfig)
    (deviceSchemas : gmap string DeviceSchema) (deviceConfig : DeviceConfig)
    (deviceSchema : DeviceSchema) (earlier later : list DeviceConfig)
    (printed : list string) (p : panic) :
  deviceSchemas !! ModelID deviceConfig = Some deviceSchema →
  GetOpenWrtState oncConfig deviceConfig deviceSchema = Panic p →
  printUciCommandsCmd_loop oncConfig deviceSchemas earlier = (printed, None) →
  printUciCommandsCmd_loop oncConfig deviceSchemas
    (earlier ++ deviceConfig :: later)
  = (printed, Some p).
Proof.
  intros Hschema Hstate. revert printed.
  induction earlier as [|dev earlier IH]; intros printed.
  - intros [= <-]. cbn [app printUciCommandsCmd_loop]. by rewrite Hschema, Hstate.
  - cbn [app printUciCommandsCmd_loop].
    destruct (deviceSchemas !! ModelID dev) as [schema|]; [|by intros [=]].
    destruct (GetOpenWrtState oncConfig dev schema) as [state|];
      [|by intros [=]].
    destruct (printUciCommandsCmd_loop oncConfig deviceSchemas earlier)
      as [rest ending].
    cbn [fst snd]. intros [= <- ->]. by rewrite (IH rest eq_refl).
Qed.

(** C5 (as amended): when the left-to-right evaluation of a condition
    reaches a comparison whose left-hand side path is absent from the fact
    namespace -- every earlier OR-group has evaluated to false, and every
    earlier comparison of its own AND-group to true -- [Evaluate] panics
    with "Invalid conditional parameter" for that path.  A comparison that
    the short-circuit skips is never looked up.  The failure is not local to
    the device being resolved: nothing recovers the panic, so for a document
    in which the condition is that of the first package profile,
    [GetOpenWrtState] panics for the device, and [printUciCommandsCmd] ends
    there, with nothing printed for that device nor for any device after
    it. *)
Theorem Evaluate_unknown_path (condition : string) (ctx : ConditionContext)
    (falseGroups : list string) (group : string) (laterGroups : list string)
    (trueParts : list string) (part : string) (laterParts : list string)
    (lhs rhs : string) :
  condition ≠ "*" →
  splitByOperator condition "||" = falseGroups ++ group :: laterGroups →
  Forall (λ falseGroup,
            allTrue (splitByOperator falseGroup "&&") (buildLHSMapping ctx)
            = Ok false)
         falseGroups →
  splitByOperator group "&&" = trueParts ++ part :: laterParts →
  Forall (λ truePart,
            evaluateComparison (TrimSpace truePart) (buildLHSMapping ctx)
            = Ok true)
         trueParts →
  comparisonSides (TrimSpace part) = Some (lhs, rhs) →
  absentPath ctx lhs →
  Evaluate (Some condition) ctx = Panic (InvalidConditionalParameter lhs)
  ∧ ∀ (oncConfig : ONCConfig) (deviceSchemas : gmap string DeviceSchema)
      (deviceConfig : DeviceConfig) (deviceSchema : DeviceSchema)
      (earlier later : list DeviceConfig) (printed : list string)
      (packages : list string) (profiles : list PackageProfile)
      (resolved : gmap string any),
      ctx = contextOf deviceConfig deviceSchema →
      deviceSchemas !! ModelID deviceConfig = Some deviceSchema →
      PackageProfiles oncConfig
      = {| PackageProfile_If := Some condition; Packages := packages |}
          :: profiles →
      resolveConfig oncConfig ctx = Ok resolved →
      printUciCommandsCmd_loop oncConfig deviceSchemas earlier
      = (printed, None) →
      GetOpenWrtState oncConfig deviceConfig deviceSchema
      = Panic (InvalidConditionalParameter lhs)
      ∧ printUciCommandsCmd_loop oncConfig deviceSchemas
          (earlier ++ deviceConfig :: later)
        = (printed, Some (InvalidConditionalParameter lhs)).
Proof.
  intros Hstar Hgroups Hfalse Hparts Htrue Hsides Habsent.
  assert (Evaluate (Some condition) ctx
          = Panic (InvalidConditionalParameter lhs)) as Hpanic.
  { unfold Evaluate. rewrite bool_decide_eq_false_2 by done.
    unfold evaluateExpression. rewrite Hgroups.
    apply anyGroup_reaches; [done|]. rewrite Hparts.
    apply allTrue_reaches; [done|].
    apply evaluateComparison_absent with (rhs := rhs); [done|].
    by apply buildLHSMapping_None. }
  split; [exact Hpanic|].
  intros oncConfig deviceSchemas deviceConfig deviceSchema earlier later
    printed packages profiles resolved -> Hschema Hprofiles Hconfig Hearlier.
  assert (GetOpenWrtState oncConfig deviceConfig deviceSchema
          = Panic (InvalidConditionalParameter lhs)) as Hstate.
  { eapply GetOpenWrtState_profile_panic; [exact Hconfig|exact Hprofiles|].
    exact Hpanic. }
  split; [exact Hstate|].
  by apply (printUciCommandsCmd_panic _ _ _ deviceSchema).
Qed.

End Engine.

(** ** Two runs on the same input *)

Lemma bind_Permutation_ext {A B : Type} (f g : A → list B) (l1 l2 : list A) :
  l1 ≡ₚ l2 → (∀ x, f x ≡ₚ g x) → l1 ≫= f ≡ₚ l2 ≫= g.
Proof.
  intros Hl Hfg. rewrite Hl. clear l1 Hl.
  induction l2 as [|x l2 IH]; [done|].
  rewrite !bind_cons. by apply Permutation_app.
Qed.

Lemma range_two_runs {A : Type} (o1 o2 : range_order) (m : gmap string A) :
  range o1 m ≡ₚ range o2 m.
Proof. by rewrite !range_perm. Qed.

Lemma GetResetCommands_two_runs (o1 o2 : range_order)
    (configSectionsToReset : gmap string (list string)) :
  GetResetCommands o1 configSectionsToReset
  ≡ₚ GetResetCommands o2 configSectionsToReset.
Proof.
  unfold GetResetCommands.
  apply bind_Permutation_ext; [apply range_two_runs | by intros [? ?]].
Qed.

Lemma sectionCommands_two_runs {float64 : Type}
    (Sprint_float64 FormatFloat : float64 → string) (o1 o2 : range_order)
    (configKey sectionKey : string) (section : any float64) :
  sectionCommands Sprint_float64 FormatFloat o1 configKey sectionKey section
  ≡ₚ sectionCommands Sprint_float64 FormatFloat o2 configKey sectionKey section.
Proof.
  unfold sectionCommands.
  destruct section as [| | | | | |sectionMap]; try done.
  destruct (sectionMap !! ".name") as [[| | |sectionName| | |]|]; try done.
  apply Permutation_skip.
  apply bind_Permutation_ext; [apply range_two_runs | done].
Qed.

Lemma GenerateCommands_two_runs {float64 : Type}
    (Sprint_float64 FormatFloat : float64 → string) (o1 o2 : range_order)
    (openWrtConfig : gmap string (any float64)) :
  GenerateCommands Sprint_float64 FormatFloat o1 openWrtConfig
  ≡ₚ GenerateCommands Sprint_float64 FormatFloat o2 openWrtConfig.
Proof.
  unfold GenerateCommands.
  apply bind_Permutation_ext; [apply range_two_runs|].
  intros [configKey configValue].
  destruct configValue as [| | | | | |configMap]; try done.
  apply bind_Permutation_ext; [apply range_two_runs|].
  intros [sectionKey sectionValue].
  destruct sectionValue as [| | | |sections| |]; try done.
  apply bind_Permutation_ext; [done|].
  intros section. apply sectionCommands_two_runs.
Qed.

(** C4 (as amended): two runs of [GenerateCommands], and two runs of
    [GetResetCommands], on equal inputs produce the same commands up to
    their order: whatever the orders in which the two runs visit the maps,
    the two command lists are permutations of each other.
    ([GetPackageCommands] loops over no map: it takes no [range_order] and
    is a function of its arguments alone.) *)
Theorem commands_equal_up_to_order {float64 : Type}
    (Sprint_float64 FormatFloat : float64 → string) (o1 o2 : range_order)
    (openWrtConfig : gmap string (any float64))
    (configSectionsToReset : gmap string (list string)) :
  GenerateCommands Sprint_float64 FormatFloat o1 openWrtConfig
  ≡ₚ GenerateCommands Sprint_float64 FormatFloat o2 openWrtConfig
  ∧ GetResetCommands o1 configSectionsToReset
    ≡ₚ GetResetCommands o2 configSectionsToReset.
Proof.
  split; [apply GenerateCommands_two_runs | apply GetResetCommands_two_runs].
Qed.

(** ** Concrete runs

    The definitions evaluated on concrete inputs, with [decode_literals] for
    [json.Unmarshal], no numbers, and the maps visited in [range_canonical]
    order unless stated otherwise. *)

Definition pkg (name version : string) : Package :=
  {| Package_Name := name; Package_Version := version |}.

Definition installed (name version : string) : InstalledPackage :=
  {| InstalledPackage_Name := name; InstalledPackage_Version := version |}.

(** A router named r1 with the tag role = router. *)
Definition router : DeviceConfig (float64 := Empty_set) :=
  {| ModelID := "ubnt,edgerouter-x"; IPAddr := "192.168.1.1";
     Hostname := "r1"; Tags := {["role" := Str "router"]} |}.

Definition router_ctx : ConditionContext :=
  {| ctx_DeviceConfig := router;
     ctx_DeviceSchema :=
       {| condition_SwConfig := false; condition_Version := "23.05.2" |} |}.

Definition noGroups : ConfigConfig (float64 := Empty_set) :=
  {| System := None; Network := None; Firewall := None; DHCP := None;
     Wireless := None; Dropbear := None; Extra := ∅ |}.

Definition document (profiles : list PackageProfile)
    (config : ConfigConfig (float64 := Empty_set)) : ONCConfig :=
  {| Devices := [router]; PackageProfiles := profiles;
     ONCConfig_ConfigsToNotReset := []; Config := config |}.

Definition profile (condition : option string) (packages : list string)
    : PackageProfile :=
  {| PackageProfile_If := condition; Packages := packages |}.

Definition evaluate (condition : string) : outcome bool :=
  Evaluate decode_literals no_float range_canonical (Some condition) router_ctx.

Definition packagesOf (profiles : list PackageProfile)
    : outcome (list Package * list string) :=
  resolvePackages decode_literals no_float range_canonical
    (document profiles noGroups) router_ctx.

(** Two profiles that both apply, one removing firewall4 and one adding it. *)
Definition firewallProfiles : list PackageProfile :=
  [profile None ["sqm-scripts"; "-firewall4"];
   profile (Some "*") ["firewall4"]].

(** C1, counterexample: with "-firewall4" in one applying profile and
    "firewall4" in another, firewall4 is in the uninstall list and in the
    install list. *)
Lemma firewall4_in_both_lists :
  ∃ (install : list Package) (uninstall : list string),
    packagesOf firewallProfiles = Ok (install, uninstall)
    ∧ "-firewall4" ∈ matchingTokens decode_literals no_float range_canonical
                        (document firewallProfiles noGroups) router_ctx
    ∧ "firewall4" ∈ uninstall
    ∧ "firewall4" ∈ Package_Name <$> install.
Proof.
  exists [pkg "sqm-scripts" EmptyString; pkg "firewall4" EmptyString],
         ["firewall4"].
  split; [by vm_compute|].
  repeat split; apply (bool_decide_unpack _); by vm_compute.
Qed.

Lemma resolvePackages_dash_token_witness :
  "firewall4" ∈ ["firewall4"]
  ∧ ("firewall4"
       ∈ Package_Name <$> [pkg "sqm-scripts" EmptyString;
                           pkg "firewall4" EmptyString]
     ↔ ∃ token,
         token ∈ matchingTokens decode_literals no_float range_canonical
                   (document firewallProfiles noGroups) router_ctx
         ∧ HasPrefix token "-" = false
         ∧ (cutAt token).1 = "firewall4").
Proof.
  apply (resolvePackages_dash_token decode_literals no_float range_canonical
           (document firewallProfiles noGroups) router_ctx).
  - by vm_compute.
  - apply (bool_decide_unpack _). by vm_compute.
Defined.

(** C6, counterexample: the token name@v1@v2 yields the version v1, not
    v1@v2. *)
Lemma version_stops_at_second_at :
  packagesOf [profile None ["name@v1@v2"]] = Ok ([pkg "name" "v1"], [])
  ∧ pkg "name" "v1" ≠ pkg "name" "v1@v2".
Proof. split; [by vm_compute | done]. Qed.

Lemma resolvePackages_directives_witness :
  (∀ name : string,
     name ∈ ["firewall4"]
     ↔ "-" +:+ name
         ∈ matchingTokens decode_literals no_float range_canonical
             (document [profile None ["name@v1@v2"; "-firewall4"]] noGroups)
             router_ctx)
  ∧ (∀ p : Package,
       p ∈ [pkg "name" "v1"]
       ↔ ∃ token,
           token ∈ matchingTokens decode_literals no_float range_canonical
                     (document [profile None ["name@v1@v2"; "-firewall4"]]
                        noGroups) router_ctx
           ∧ HasPrefix token "-" = false
           ∧ p = installDirective token)
  ∧ (∀ name version rest : string,
       hasAt name = false → hasAt version = false →
       installDirective name
       = {| Package_Name := name; Package_Version := EmptyString |}
       ∧ installDirective (name +:+ "@" +:+ version)
         = {| Package_Name := name; Package_Version := version |}
       ∧ installDirective (name +:+ "@" +:+ version +:+ "@" +:+ rest)
         = {| Package_Name := name; Package_Version := version |}).
Proof.
  apply (resolvePackages_directives decode_literals no_float range_canonical
           (document [profile None ["name@v1@v2"; "-firewall4"]] noGroups)
           router_ctx).
  by vm_compute.
Defined.

(** C2, counterexample: the quoted token 'true' is parsed as the boolean
    true, not as a string. *)
Lemma quoted_true_is_bool :
  quoted "'true'" = true
  ∧ parseValue (float64 := Empty_set) decode_literals "'true'" = Ok (Bool true)
  ∧ ∀ text : string,
      parseValue (float64 := Empty_set) decode_literals "'true'"
      ≠ Ok (Str text).
Proof. split; [by vm_compute|]. split; [by vm_compute|]. by vm_compute. Qed.

Lemma parseValue_decodes_witness :
  parseValue (float64 := Empty_set) decode_literals " 'router' "
  = Ok (decodeOrRaw decode_literals "router").
Proof.
  apply parseValue_decodes. right. exists "'". split.
  - apply (bool_decide_unpack _). by vm_compute.
  - by vm_compute.
Defined.

(** C3, counterexample: directives given as zlib, curl are listed as
    zlib curl, while the sorted order is curl zlib. *)
Lemma install_command_not_sorted :
  GetPackageCommands [pkg "zlib" EmptyString; pkg "curl" EmptyString]
    ["wpad"; "dnsmasq"] None
  = ["opkg remove --force-removal-of-dependent-packages wpad dnsmasq";
     "opkg update;"; "opkg install zlib curl"]
  ∧ merge_sort String.le ["zlib"; "curl"] = ["curl"; "zlib"]
  ∧ merge_sort String.le ["wpad"; "dnsmasq"] = ["dnsmasq"; "wpad"].
Proof. repeat split; by vm_compute. Qed.

Lemma GetPackageCommands_ignores_versions_witness :
  GetPackageCommands [pkg "sqm-scripts" "1.5"; pkg "luci-app-sqm" EmptyString]
    ["firewall4"] (Some [installed "firewall4" "2023-09-01"])
  = GetPackageCommands [pkg "sqm-scripts" EmptyString; pkg "luci-app-sqm" "2"]
      ["firewall4"] (Some [installed "firewall4" "2024-01-01"]).
Proof. apply GetPackageCommands_ignores_versions; reflexivity. Defined.

(** A reset scope and a resolved tree with two groups each. *)
Definition twoGroupScope : gmap string (list string) :=
  <["firewall" := ["zone"; "rule"]]> {["network" := ["interface"]]}.

Definition twoGroupTree : gmap string (any Empty_set) :=
  <["system" :=
      Obj {["system" :=
              Arr [Obj (<[".name" := Str "main"]>
                          {["hostname" := Str "r1"]})]]}]>
    {["network" :=
        Obj {["interface" :=
                Arr [Obj (<[".name" := Str "wan"]>
                            {["proto" := Str "dhcp"]})]]}]}.

(** C4, counterexample: two runs that visit the maps in different orders
    produce different command sequences from the same input. *)
Lemma commands_depend_on_order :
  GetResetCommands range_canonical twoGroupScope
  ≠ GetResetCommands range_reversed twoGroupScope
  ∧ GenerateCommands no_float no_float range_canonical twoGroupTree
    ≠ GenerateCommands no_float no_float range_reversed twoGroupTree.
Proof. split; by vm_compute. Qed.

(** A second router, named zzz, of the same model; a schema of that model
    with no section to reset; and a document whose only package profile
    applies to zzz, and to r1 when the path device.bogus has the value x. *)
Definition otherRouter : DeviceConfig (float64 := Empty_set) :=
  {| ModelID := "ubnt,edgerouter-x"; IPAddr := "192.168.1.2";
     Hostname := "zzz"; Tags := ∅ |}.

Definition bareSchema : DeviceSchema :=
  {| Name := "ubnt,edgerouter-x"; Version := "23.05.2"; SwConfig := false;
     ConfigSections := ∅ |}.

Definition bareSchemas : gmap string DeviceSchema :=
  {["ubnt,edgerouter-x" := bareSchema]}.

Definition guardedDocument : ONCConfig (float64 := Empty_set) :=
  {| Devices := [otherRouter; router];
     PackageProfiles :=
       [profile
          (Some "device.hostname == 'zzz' || device.hostname == 'r1' && device.bogus == 'x'")
          ["sqm-scripts"]];
     ONCConfig_ConfigsToNotReset := []; Config := noGroups |}.

Definition printCommands (devices : list DeviceConfig)
    : list string * option panic :=
  printUciCommandsCmd_loop decode_literals no_float no_float range_canonical
    guardedDocument bareSchemas devices.

(** C5, counterexample: the second comparison names a path that no device
    defines, yet the condition evaluates to false without a panic, because
    the first comparison is false and ends the AND-group.  And where the
    path is looked up, the failure is not local to the device: the commands
    of zzz are printed when zzz is alone, and are not when r1, for which the
    condition panics, comes first. *)
Lemma unknown_path_skipped :
  evaluate "device.hostname == 'zzz' && device.bogus == 'x'" = Ok false
  ∧ splitByOperator "device.hostname == 'zzz' && device.bogus == 'x'" "&&"
    = ["device.hostname == 'zzz' "; " device.bogus == 'x'"]
  ∧ comparisonSides " device.bogus == 'x'" = Some ("device.bogus", "'x'")
  ∧ absentPath router_ctx "device.bogus"
  ∧ printCommands [otherRouter]
    = (["# device zzz"; "opkg update;"; "opkg install sqm-scripts";
        "uci commit"; "reload_config"], None)
  ∧ printCommands [router; otherRouter]
    = ([], Some (InvalidConditionalParameter "device.bogus")).
Proof.
  split; [by vm_compute|]. split; [by vm_compute|]. split; [by vm_compute|].
  split; [|split; by vm_compute].
  apply (buildLHSMapping_None range_canonical). by vm_compute.
Qed.

Lemma Evaluate_unknown_path_witness :
  evaluate "device.hostname == 'zzz' || device.hostname == 'r1' && device.bogus == 'x'"
  = Panic (InvalidConditionalParameter "device.bogus")
  ∧ GetOpenWrtState decode_literals no_float range_canonical guardedDocument
      router bareSchema
    = Panic (InvalidConditionalParameter "device.bogus")
  ∧ printCommands [otherRouter; router; otherRouter]
    = (["# device zzz"; "opkg update;"; "opkg install sqm-scripts";
        "uci commit"; "reload_config"],
       Some (InvalidConditionalParameter "device.bogus")).
Proof.
  destruct (Evaluate_unknown_path decode_literals no_float no_float
              range_canonical
              "device.hostname == 'zzz' || device.hostname == 'r1' && device.bogus == 'x'"
              router_ctx
              ["device.hostname == 'zzz' "]
              " device.hostname == 'r1' && device.bogus == 'x'" []
              [" device.hostname == 'r1' "] " device.bogus == 'x'" []
              "device.bogus" "'x'") as [Hpanic Hrun].
  - done.
  - by vm_compute.
  - constructor; [by vm_compute | constructor].
  - by vm_compute.
  - constructor; [by vm_compute | constructor].
  - by vm_compute.
  - apply (buildLHSMapping_None range_canonical). by vm_compute.
  - split; [exact Hpanic|].
    apply (Hrun guardedDocument bareSchemas router bareSchema
             [otherRouter] [otherRouter]
             ["# device zzz"; "opkg update;"; "opkg install sqm-scripts";
              "uci commit"; "reload_config"]
             ["sqm-scripts"] [] ∅); by vm_compute.
Defined.

(** A node with two overrides that both apply to r1 and both set the field
    x, followed by a third that sets x too and does not apply to r1. *)
Definition nodeOverrides : list (any Empty_set) :=
  [Obj (<[".if" := Str "*"]>
          {["override" := Obj {["x" := Str "first"]}]});
   Obj (<[".if" := Str "device.tag.role == 'router'"]>
          {["override" := Obj (<["x" := Str "second"]>
                                 {["y" := Str "added"]})]});
   Obj (<[".if" := Str "device.hostname == 'r2'"]>
          {["override" := Obj {["x" := Str "skipped"]}]})].

Definition overriddenNode : gmap string (any Empty_set) :=
  <[".name" := Str "wan"]>
    (<["x" := Str "own"]>
       (<[".if" := Str "device.hostname == 'r1'"]>
          {[".overrides" := Arr nodeOverrides]})).

Definition overriddenResult : gmap string (any Empty_set) :=
  <[".name" := Str "wan"]>
    (<["x" := Str "second"]> {["y" := Str "added"]}).

(** The same node, with an own [.if] that does not hold for r1. *)
Definition otherDeviceNode : gmap string (any Empty_set) :=
  <[".if" := Str "device.hostname == 'r2'"]> overriddenNode.

(** C7, counterexample: two overrides of the node apply to r1 and set the
    field x, yet the result has no field x, and no field at all: the own
    [.if] of the node does not hold, and the overrides are not merged. *)
Lemma overrides_of_false_node_ignored :
  otherDeviceNode !! ".overrides" = Some (Arr nodeOverrides)
  ∧ omap (matchingOverride decode_literals no_float range_canonical
            router_ctx) nodeOverrides
    = [{["x" := Str "first"]};
       <["x" := Str "second"]> {["y" := Str "added"]}]
  ∧ applyObject decode_literals no_float range_canonical otherDeviceNode
      router_ctx
    = Ok ∅
  ∧ (∅ : gmap string (any Empty_set)) !! "x" = None.
Proof. repeat split; by vm_compute. Qed.

Lemma applyObject_overrides_in_order_witness :
  applyObject decode_literals no_float range_canonical otherDeviceNode
    router_ctx
  = Ok ∅
  ∧ Forall (overrideEvaluates decode_literals no_float range_canonical
              router_ctx) nodeOverrides
  ∧ applyObject decode_literals no_float range_canonical overriddenNode
      router_ctx
    = Ok overriddenResult
  ∧ overriddenResult
    = foldl overwrite
        (ownFields overriddenNode)
        (omap (matchingOverride decode_literals no_float range_canonical
                 router_ctx) nodeOverrides)
  ∧ ∀ field : string,
      overriddenResult !! field
      = match last (omap (λ overrideData : gmap string (any Empty_set),
                            overrideData !! field)
                         (omap (matchingOverride decode_literals no_float
                                  range_canonical router_ctx)
                               nodeOverrides)) with
        | Some value => Some value
        | None => ownFields overriddenNode !! field
        end.
Proof.
  destruct (applyObject_overrides_in_order decode_literals no_float
              range_canonical otherDeviceNode router_ctx nodeOverrides)
    as (_ & Hfalse & _); [by vm_compute|].
  destruct (applyObject_overrides_in_order decode_literals no_float
              range_canonical overriddenNode router_ctx nodeOverrides)
    as (_ & _ & Htrue); [by vm_compute|].
  destruct Htrue as [Hreturns Hresult]; [by vm_compute|].
  split; [apply Hfalse; by vm_compute|].
  assert (applyObject decode_literals no_float range_canonical overriddenNode
            router_ctx = Ok overriddenResult) as Happly by by vm_compute.
  split; [apply Hreturns; by exists overriddenResult|].
  split; [exact Happly|]. exact (Hresult overriddenResult Happly).
Defined.

(** The "config" object of a document with a system group and an "extra"
    group. *)
Definition extraGroup : any Empty_set :=
  Obj {["custom" := Arr [Obj {[".name" := Str "mine"]}]]}.

Definition rawConfig : gmap string (any Empty_set) :=
  <["extra" := extraGroup]>
    {["system" :=
        Obj {["system" :=
                Arr [Obj (<[".name" := Str "main"]>
                            {["hostname" := Str "r1"]})]]}]}.

Definition decodedConfig : ConfigConfig (float64 := Empty_set) :=
  {| System :=
       Some {["system" :=
                Arr [Obj (<[".name" := Str "main"]>
                            {["hostname" := Str "r1"]})]]};
     Network := None; Firewall := None; DHCP := None; Wireless := None;
     Dropbear := None; Extra := {["extra" := extraGroup]} |}.

(** A typed decode to run [UnmarshalJSON] on the document above: a known
    group that is an object is taken as it is, which is what [encoding/json]
    gives for a group that holds only fields of its Go struct with values of
    the fields' types, as the system group above does; [null] makes the
    group nil, an absent key leaves the group of the receiver, and any other
    value is an error. *)
Definition plainGroup (group : option (gmap string (any Empty_set)))
    (v : option (any Empty_set))
    : option (option (gmap string (any Empty_set))) :=
  match v with
  | None => Some group
  | Some Nil => Some None
  | Some (Obj m) => Some (Some m)
  | Some _ => None
  end.

Definition decode_plain (c : ConfigConfig (float64 := Empty_set))
    (raw : gmap string (any Empty_set)) : option ConfigConfig :=
  system ← plainGroup (System c) (raw !! "system");
  network ← plainGroup (Network c) (raw !! "network");
  firewall ← plainGroup (Firewall c) (raw !! "firewall");
  dhcp ← plainGroup (DHCP c) (raw !! "dhcp");
  wireless ← plainGroup (Wireless c) (raw !! "wireless");
  dropbear ← plainGroup (Dropbear c) (raw !! "dropbear");
  Some {| System := system; Network := network; Firewall := firewall;
          DHCP := dhcp; Wireless := wireless; Dropbear := dropbear;
          Extra := Extra c |}.

Definition resolvedSystem : gmap string (any Empty_set) :=
  {["system" :=
      Obj {["system" :=
              Arr [Obj (<[".name" := Str "main"]>
                          {["hostname" := Str "r1"]})]]}]}.

(** C9, counterexample: the document has a top-level "extra" group, and the
    resolved tree has none. *)
Lemma extra_group_is_dropped :
  rawConfig !! "extra" = Some extraGroup
  ∧ UnmarshalJSON range_canonical decode_plain noGroups rawConfig
    = Some decodedConfig
  ∧ resolveConfig decode_literals no_float range_canonical
      (document [] decodedConfig) router_ctx
    = Ok resolvedSystem
  ∧ resolvedSystem !! "extra" = None.
Proof. repeat split; by vm_compute. Qed.

Lemma resolveConfig_drops_extra_witness :
  resolvedSystem !! "extra" = None
  ∧ (∀ key : string, is_Some (resolvedSystem !! key) → key ∈ knownFields)
  ∧ ∀ extra : gmap string (any Empty_set),
      resolveConfig decode_literals no_float range_canonical
        (withExtra extra (document [] decodedConfig)) router_ctx
      = Ok resolvedSystem.
Proof.
  apply (resolveConfig_drops_extra decode_literals no_float range_canonical
           (document [] decodedConfig) router_ctx).
  by vm_compute.
Defined.

(** *** Further runs *)

Lemma evaluateExpression_or_of_ands_witness :
  evaluateExpression decode_literals no_float
    "device.hostname == 'zzz' || device.hostname == 'r1' && device.sw_config == false"
    (buildLHSMapping range_canonical router_ctx)
  = Ok (existsb
          (λ orPart,
             forallb (λ andPart,
                        negb (String.eqb andPart "device.hostname == 'zzz' "))
                     (splitByOperator orPart "&&"))
          (splitByOperator
             "device.hostname == 'zzz' || device.hostname == 'r1' && device.sw_config == false"
             "||")).
Proof.
  apply (evaluateExpression_or_of_ands decode_literals no_float
           (λ andPart, negb (String.eqb andPart "device.hostname == 'zzz' "))).
  apply (bool_decide_unpack _). by vm_compute.
Defined.

Lemma evaluateComparison_malformed_witness :
  evaluateComparison decode_literals no_float " device.hostname "
    (buildLHSMapping range_canonical router_ctx)
  = Panic (UnableToParseCondition (TrimSpace " device.hostname ")).
Proof.
  apply (evaluateComparison_malformed decode_literals no_float);
    by vm_compute.
Defined.


Lemma resolvePackages_census_witness :
  NoDup ["firewall4"]
  ∧ length [pkg "sqm-scripts" EmptyString; pkg "firewall4" EmptyString]
    + length ["firewall4"]
    = length (remove_dups
                (matchingTokens decode_literals no_float range_canonical
                   (document firewallProfiles noGroups) router_ctx)).
Proof.
  apply (resolvePackages_census decode_literals no_float range_canonical
           (document firewallProfiles noGroups) router_ctx).
  by vm_compute.
Defined.

Lemma UnmarshalJSON_Extra_witness :
  (∀ key : string,
     Extra decodedConfig !! key
     = if decide (key ∈ knownFields) then None else rawConfig !! key)
  ∧ ∃ aux : ConfigConfig,
      decode_plain noGroups rawConfig = Some aux
      ∧ marshalConfig decodedConfig = marshalConfig aux.
Proof.
  apply (UnmarshalJSON_Extra range_canonical decode_plain noGroups
           decodedConfig rawConfig).
  by vm_compute.
Defined.

Lemma resolveConfig_provenance_witness :
  ∃ configObj appliedConfig resolvedSections : gmap string (any Empty_set),
    marshalConfig (Config (document [] decodedConfig)) !! "system"
    = Some (Obj configObj)
    ∧ applyObject decode_literals no_float range_canonical configObj
        router_ctx
      = Ok appliedConfig
    ∧ Obj {["system" :=
              Arr [Obj (<[".name" := Str "main"]>
                          {["hostname" := Str "r1"]})]]}
      = Obj resolvedSections
    ∧ 0 < size resolvedSections
    ∧ ∀ (sectionKey : string) (sectionValue : any Empty_set),
        resolvedSections !! sectionKey = Some sectionValue →
        HasPrefix sectionKey "." = false
        ∧ ∃ sections : list (any Empty_set),
            appliedConfig !! sectionKey = Some (Arr sections)
            ∧ sectionValue
              = Arr (omap (survivingSection decode_literals no_float
                             range_canonical router_ctx) sections)
            ∧ omap (survivingSection decode_literals no_float
                      range_canonical router_ctx) sections ≠ [].
Proof.
  apply (resolveConfig_provenance decode_literals no_float range_canonical
           (document [] decodedConfig) router_ctx resolvedSystem "system");
    by vm_compute.
Defined.

(** A group that applies to the device r2 only. *)
Definition otherDeviceGroup : gmap string (any Empty_set) :=
  <[".if" := Str "device.hostname == 'r2'"]>
    {["interface" := Arr [Obj {[".name" := Str "wan"]}]]}.

Definition otherDeviceConfig : ConfigConfig (float64 := Empty_set) :=
  {| System :=
       Some {["system" :=
                Arr [Obj (<[".name" := Str "main"]>
                            {["hostname" := Str "r1"]})]]};
     Network := Some otherDeviceGroup; Firewall := None; DHCP := None;
     Wireless := None; Dropbear := None; Extra := ∅ |}.

Lemma false_node_disappears_witness :
  applyObject decode_literals no_float range_canonical otherDeviceGroup
    router_ctx
  = Ok ∅
  ∧ resolveSectionKey decode_literals no_float range_canonical router_ctx ∅
      ("interface",
       Arr [Obj {[".name" := Str "lan"]}; Obj otherDeviceGroup])
    = resolveSectionKey decode_literals no_float range_canonical router_ctx ∅
        ("interface", Arr [Obj {[".name" := Str "lan"]}])
  ∧ resolvedSystem !! "network" = None.
Proof.
  destruct (false_node_disappears decode_literals no_float range_canonical
              otherDeviceGroup router_ctx) as (Happly & Hsection & Hgroup);
    [by vm_compute|].
  split; [exact Happly|]. split.
  - apply (Hsection ∅ "interface" [Obj {[".name" := Str "lan"]}] []).
  - apply (Hgroup (document [] otherDeviceConfig)); by vm_compute.
Defined.

(** The schema of the router, and a document with two exemptions: one for
    the router r1, one for another device. *)
Definition routerSchema : DeviceSchema :=
  {| Name := "ubnt,edgerouter-x"; Version := "23.05.2"; SwConfig := false;
     ConfigSections := twoGroupScope |}.

Definition exemptingDocument : ONCConfig (float64 := Empty_set) :=
  {| Devices := [router]; PackageProfiles := firewallProfiles;
     ONCConfig_ConfigsToNotReset :=
       [{| ConfigsToNotReset_If := Some "device.hostname == 'r1'";
           Configs := ["firewall.zone"] |};
        {| ConfigsToNotReset_If := Some "device.hostname == 'r2'";
           Configs := ["network.*"] |}];
     Config := decodedConfig |}.

Definition routerState : OpenWrtState (float64 := Empty_set) :=
  {| State_Config := resolvedSystem;
     PackagesToInstall :=
       [pkg "sqm-scripts" EmptyString; pkg "firewall4" EmptyString];
     PackagesToUninstall := ["firewall4"];
     ConfigSectionsToReset :=
       <["firewall" := ["rule"]]> {["network" := ["interface"]]} |}.

Lemma GetOpenWrtState_reset_scope_witness :
  (∃ sectionKeys,
     ConfigSectionsToReset routerState !! "network" = Some sectionKeys
     ∧ "interface" ∈ sectionKeys)
  ↔ (∃ sectionKeys,
       ConfigSections routerSchema !! "network" = Some sectionKeys
       ∧ "interface" ∈ sectionKeys)
    ∧ ("network" +:+ ".*"
         ∉ matchingExemptions decode_literals no_float range_canonical
             exemptingDocument (contextOf router routerSchema))
    ∧ ("network" +:+ "." +:+ "interface"
         ∉ matchingExemptions decode_literals no_float range_canonical
             exemptingDocument (contextOf router routerSchema)).
Proof.
  apply (GetOpenWrtState_reset_scope decode_literals no_float range_canonical
           exemptingDocument router routerSchema routerState).
  by vm_compute.
Defined.

Lemma GetDeviceScript_unusable_listing_witness :
  parseInstalledPackages EmptyString = None
  ∧ filter (λ command, HasPrefix command "opkg " = true)
           (GetDeviceScript no_float no_float range_canonical routerState
              (Some (λ _, Some EmptyString)))
    = removeCommand (PackagesToUninstall routerState)
      ++ installCommand (Package_Name <$> PackagesToInstall routerState).
Proof.
  apply (GetDeviceScript_unusable_listing no_float no_float range_canonical
           routerState (λ _, Some EmptyString) EmptyString); by vm_compute.
Defined.

Lemma parseInstalledPackages_getInstalledPackages_witness :
  parseInstalledPackages (getInstalledPackages ["dnsmasq"; "firewall4"])
  = Some [installed "dnsmasq" "1.0.0"; installed "firewall4" "1.0.0"].
Proof.
  apply (parseInstalledPackages_getInstalledPackages
           ["dnsmasq"; "firewall4"]).
  constructor; [by vm_compute|]. constructor; [by vm_compute | constructor].
Defined.

Lemma GenerateCommands_blocks_witness :
  createsSection "network" "interface" "wan"
    ∈ GenerateCommands no_float no_float range_canonical twoGroupTree
  ∧ ∃ command,
      command ∈ GenerateCommands no_float no_float range_canonical
                  twoGroupTree
      ∧ setsOption "network" "wan" "proto" command.
Proof.
  destruct (GenerateCommands_blocks no_float no_float range_canonical
              twoGroupTree) as [_ Hsections].
  destruct (Hsections "network" "interface" "wan"
              (<[".name" := Str "wan"]> {["proto" := Str "dhcp"]}))
    as [Hcreated Hoptions].
  { eexists _, _. split; [by vm_compute|]. split; [by vm_compute|].
    split; [by left | by vm_compute]. }
  split; [exact Hcreated|].
  apply (Hoptions "proto" (Str "dhcp")); [by vm_compute | done | done].
Defined.
